(** * Drift FM: playlist generation and play tracking

    A shallow embedding of the Go packages [internal/inventory],
    [internal/radio], [internal/cache] and [internal/api], and the
    properties of the playlist engine, the response cache and the play
    report handler proved over it.

    Conventions of the embedding:
    - Go [int] and [int64] values are [Z]; no arithmetic of the modelled
      code can leave the 64-bit range, so no wrap-around is written.
    - A Go [(value, error)] pair is a [Result]; a run-time panic (index out
      of range) is [None] in an [option].
    - [time.Now()] is an explicit argument [now : Z].
    - Mutable objects reached through pointers (the repository, a radio,
      the cache, the metrics singleton) are threaded as explicit state. *)

From stdpp Require Import gmap strings list fin_maps.
From Stdlib Require Import ZArith Ascii Sorted.

Set Default Proof Using "Type*".

(** ** Go's [(value, error)] results *)

Inductive Result (A : Type) : Type :=
| Ok (a : A)
| Err (msg : string).
Arguments Ok {A} a.
Arguments Err {A} msg.

Definition rbind {A B} (r : Result A) (k : A → Result B) : Result B :=
  match r with
  | Ok a => k a
  | Err e => Err e
  end.

Notation "'try' x ':=' r 'in' k" := (rbind r (λ x, k))
  (at level 10, x name, r at level 100, k at level 200, only parsing).

(** ** Package inventory: tracks, listen events and the SQLite store *)

Module inventory.

(** [inventory.Track]. [CreatedAt] and [LastPlayedAt] are points in time. *)
Record Track := MkTrack {
  ID : Z;
  FilePath : string;
  AudioURL : string;
  Title : option string;
  Artist : option string;
  Mood : string;
  Energy : string;
  TempoBPM : option Z;
  HasVocals : bool;
  MusicalKey : option string;
  Intensity : option Z;
  TimeAffinity : option string;
  Lyrics : option string;
  DurationSeconds : Z;
  Status : string;
  CreatedAt : Z;
  PlayCount : Z;
  LastPlayedAt : option Z
}.

Definition StatusApproved : string := "approved".

(** [inventory.ListenEvent]; the fields [TrackID] and [Mood] carry an [Ev]
    prefix because [Track] already owns the projection [Mood]. *)
Record ListenEvent := MkListenEvent {
  EvTrackID : Z;
  EvMood : string;
  EventType : string;
  ListenSeconds : Z;
  PlaylistPosition : option Z
}.

Definition EventPlay : string := "play".
Definition EventSkip : string := "skip".
Definition EventComplete : string := "complete".

(** The zero value of [ListenEvent] ([var evt inventory.ListenEvent]). *)
Definition zeroListenEvent : ListenEvent :=
  MkListenEvent 0 "" "" 0 None.

(** *** The tables of [scripts/migrations/schema.sql] *)

(** A row of [tracks]. *)
Record TrackRow := MkTrackRow {
  id : Z;
  file_path : string;
  title : option string;
  artist : option string;
  mood : string;
  energy : string;
  tempo_bpm : option Z;
  has_vocals : Z;
  musical_key : option string;
  intensity : option Z;
  time_affinity : option string;
  lyrics : option string;
  duration_seconds : Z;
  status : string;
  created_at : Z
}.

(** A row of [play_stats], keyed by [file_path]. *)
Record PlayStat := MkPlayStat {
  play_count : Z;
  last_played_at : option Z
}.

(** A row of [listen_events]. *)
Record ListenRow := MkListenRow {
  le_track_id : Z;
  le_mood : string;
  le_event_type : string;
  le_listen_seconds : Z;
  le_playlist_position : option Z;
  le_created_at : Z
}.

Record DB := MkDB {
  tracks : list TrackRow;
  play_stats : gmap string PlayStat;
  listen_events : list ListenRow
}.

(** Storage calls can fail for reasons outside the tables (I/O error,
    lock-wait timeout).  One switch per call, as in the handler tests'
    [mockRepo]. *)
Record Faults := MkFaults {
  getByIDErr : bool;
  getByMoodErr : bool;
  beginTxErr : bool;
  updatePlayStatsErr : bool;
  recordListenEventErr : bool;
  commitErr : bool
}.

Definition noFaults : Faults := MkFaults false false false false false false.

(** [*inventory.Repository]: the database behind the connection. *)
Record Repository := MkRepository {
  db : DB;
  faults : Faults
}.

(** [scanTrack.toTrack] applied to a row of
    [tracks t LEFT JOIN play_stats ps ON t.file_path = ps.file_path]. *)
Definition toTrack (row : TrackRow) (ps : option PlayStat) : Track :=
  {| ID := id row;
     FilePath := file_path row;
     AudioURL := "";
     Title := title row;
     Artist := artist row;
     Mood := mood row;
     Energy := energy row;
     TempoBPM := tempo_bpm row;
     HasVocals := bool_decide (has_vocals row = 1%Z);
     MusicalKey := musical_key row;
     Intensity := intensity row;
     TimeAffinity := time_affinity row;
     Lyrics := lyrics row;
     DurationSeconds := duration_seconds row;
     Status := status row;
     CreatedAt := created_at row;
     PlayCount := from_option play_count 0%Z ps;
     LastPlayedAt := ps ≫= last_played_at |}.

Definition joinStats (d : DB) (row : TrackRow) : Track :=
  toTrack row (play_stats d !! file_path row).

(** [WHERE t.id = ?] on the primary key. *)
Fixpoint findByID (rows : list TrackRow) (trackID : Z) : option TrackRow :=
  match rows with
  | [] => None
  | row :: rows' =>
      if decide (id row = trackID) then Some row else findByID rows' trackID
  end.

(** [Repository.GetByID]: [(nil, nil)] when no row matches. *)
Definition GetByID (r : Repository) (trackID : Z) : Result (option Track) :=
  if getByIDErr (faults r) then Err "failed to get track"
  else Ok (joinStats (db r) <$> findByID (tracks (db r)) trackID).

(** [ORDER BY COALESCE(ps.play_count, 0) ASC, ps.last_played_at ASC NULLS FIRST] *)
Definition nullsFirstLe (a b : option Z) : bool :=
  match a, b with
  | None, _ => true
  | Some _, None => false
  | Some x, Some y => bool_decide (x ≤ y)%Z
  end.

Definition orderLe (a b : Track) : bool :=
  bool_decide (PlayCount a < PlayCount b)%Z
  || (bool_decide (PlayCount a = PlayCount b)
      && nullsFirstLe (LastPlayedAt a) (LastPlayedAt b)).

Fixpoint insertOrdered (t : Track) (l : list Track) : list Track :=
  match l with
  | [] => [t]
  | u :: l' => if orderLe t u then t :: l else u :: insertOrdered t l'
  end.

Definition orderBy (l : list Track) : list Track :=
  foldr insertOrdered [] l.

(** The [WHERE] clause of [GetByMood]. *)
Definition eligible (m : string) (instrumentalOnly : bool) (row : TrackRow) : bool :=
  bool_decide (mood row = m)
  && bool_decide (status row = StatusApproved)
  && (if instrumentalOnly then bool_decide (has_vocals row = 0%Z) else true).

(** [Repository.GetByMood]. *)
Definition GetByMood (r : Repository) (m : string) (instrumentalOnly : bool)
  : Result (list Track) :=
  if getByMoodErr (faults r) then Err "failed to query tracks"
  else Ok (orderBy (joinStats (db r)
                      <$> List.filter (eligible m instrumentalOnly) (tracks (db r)))).

(** *** Transactions

    A [*sql.Tx] is a working copy of the tables: statements executed through
    it change the copy, [Commit] installs the copy as the database,
    [Rollback] drops it. *)
Record Tx := MkTx {
  tx_db : DB
}.

(** [Repository.BeginTx]. *)
Definition BeginTx (r : Repository) : Result Tx :=
  if beginTxErr (faults r) then Err "begin failed" else Ok (MkTx (db r)).

(** The upsert of [UpdatePlayStatsTx]:
    [INSERT ... SELECT file_path, 1, now FROM tracks WHERE id = ?
     ON CONFLICT(file_path) DO UPDATE SET play_count = play_count + 1,
     last_played_at = excluded.last_played_at]. *)
Definition upsertPlay (now : Z) (ps : option PlayStat) : PlayStat :=
  match ps with
  | Some s => MkPlayStat (play_count s + 1) (Some now)
  | None => MkPlayStat 1 (Some now)
  end.

(** [Repository.UpdatePlayStatsTx]: no row affected is the error
    "failed to find track". *)
Definition UpdatePlayStatsTx (r : Repository) (tx : Tx) (trackID : Z) (now : Z)
  : Result Tx :=
  if updatePlayStatsErr (faults r) then Err "failed to update play stats"
  else
    match findByID (tracks (tx_db tx)) trackID with
    | None => Err "failed to find track"
    | Some row =>
        let d := tx_db tx in
        Ok (MkTx (MkDB (tracks d)
                       (<[file_path row := upsertPlay now (play_stats d !! file_path row)]>
                          (play_stats d))
                       (listen_events d)))
    end.

(** [CHECK (event_type IN ('play', 'skip', 'complete'))] *)
Definition eventTypeCheck (e : string) : bool :=
  bool_decide (e = EventPlay) || bool_decide (e = EventSkip)
  || bool_decide (e = EventComplete).

(** The row [INSERT INTO listen_events (track_id, mood, event_type,
    listen_seconds, playlist_position) VALUES (?, ?, ?, ?, ?)] adds;
    [created_at] defaults to the time of the insert. *)
Definition listenRow (evt : ListenEvent) (now : Z) : ListenRow :=
  MkListenRow (EvTrackID evt) (EvMood evt) (EventType evt)
              (ListenSeconds evt) (PlaylistPosition evt) now.

(** [Repository.RecordListenEventTx]: one [INSERT INTO listen_events]; the
    event's fields are bound to the statement as they are. *)
Definition RecordListenEventTx (r : Repository) (tx : Tx) (evt : ListenEvent) (now : Z)
  : Result Tx :=
  if recordListenEventErr (faults r) then Err "failed to record listen event"
  else if negb (eventTypeCheck (EventType evt)) then Err "failed to record listen event"
  else
    let d := tx_db tx in
    Ok (MkTx (MkDB (tracks d) (play_stats d) (listen_events d ++ [listenRow evt now]))).

(** [tx.Commit()]: the working copy becomes the database. *)
Definition Commit (r : Repository) (tx : Tx) : Result Repository :=
  if commitErr (faults r) then Err "commit failed"
  else Ok (MkRepository (tx_db tx) (faults r)).

(** [Repository.UpdatePlayStats]: the upsert of [UpdatePlayStatsTx] run on
    the connection itself, outside any transaction. *)
Definition UpdatePlayStats (r : Repository) (trackID : Z) (now : Z)
  : Result Repository :=
  if updatePlayStatsErr (faults r) then Err "failed to update play stats"
  else
    match findByID (tracks (db r)) trackID with
    | None => Err "failed to find track"
    | Some row =>
        let d := db r in
        Ok (MkRepository
              (MkDB (tracks d)
                    (<[file_path row := upsertPlay now (play_stats d !! file_path row)]>
                       (play_stats d))
                    (listen_events d))
              (faults r))
    end.

(** [inventory.MoodStats] *)
Record MoodStats := MkMoodStats {
  MsMood : string;
  MsTrackCount : Z;
  MsTotalSeconds : Z
}.

(** [GROUP BY mood] with [COUNT( * )] and [SUM(duration_seconds)]: a row
    joins the group of its mood or opens a new one. *)
Fixpoint addToGroup (row : TrackRow) (groups : list MoodStats) : list MoodStats :=
  match groups with
  | [] => [MkMoodStats (mood row) 1 (duration_seconds row)]
  | g :: groups' =>
      if decide (MsMood g = mood row)
      then MkMoodStats (MsMood g) (MsTrackCount g + 1)
                       (MsTotalSeconds g + duration_seconds row) :: groups'
      else g :: addToGroup row groups'
  end.

Definition groupByMood (rows : list TrackRow) : list MoodStats :=
  foldl (λ groups row, addToGroup row groups) [] rows.

(** [ORDER BY mood] *)
Fixpoint insertByMood (g : MoodStats) (l : list MoodStats) : list MoodStats :=
  match l with
  | [] => [g]
  | u :: l' =>
      if String.leb (MsMood g) (MsMood u) then g :: l else u :: insertByMood g l'
  end.

(** [Repository.GetMoodStats]; [fails] is the storage fault of the query. *)
Definition GetMoodStats (r : Repository) (fails : bool) : Result (list MoodStats) :=
  if fails then Err "failed to query mood stats"
  else Ok (foldr insertByMood []
             (groupByMood
                (List.filter (λ row, bool_decide (status row = StatusApproved))
                             (tracks (db r))))).

End inventory.

(** ** Package radio: the per-mood playlist engine and its registry *)

Module radio.
Import inventory.

(** [*rand.Rand] of Go's [math/rand], which is not part of the repository:
    a generator state with the documented contract of [Intn] ("a
    non-negative pseudo-random number in the half-open interval [0,n)"). *)
Class RandSource (G : Type) := {
  NewSource : Z → G;
  Intn : G → Z → Z * G;
  Intn_range : ∀ g n, (0 < n)%Z → (0 ≤ (Intn g n).1 < n)%Z
}.

(** [DefaultMaxRecent] *)
Definition DefaultMaxRecent : Z := 3.

(** [s[i]] for a Go [int] index; [None] is the index-out-of-range panic. *)
Definition index {A} (s : list A) (i : Z) : option A :=
  if decide (0 ≤ i)%Z then s !! Z.to_nat i else None.

(** [s[i], s[j] = s[j], s[i]] *)
Definition swap {A} (s : list A) (i j : Z) : option (list A) :=
  a ← index s i;
  b ← index s j;
  Some (<[Z.to_nat j := a]> (<[Z.to_nat i := b]> s)).

(** [for _, t := range src { dst[idx] = t; idx++ }] *)
Fixpoint writeFrom {A} (idx : nat) (src dst : list A) : list A * nat :=
  match src with
  | [] => (dst, idx)
  | t :: src' => writeFrom (S idx) src' (<[idx := t]> dst)
  end.

Section Radio.
Context {G : Type} `{RandSource G}.

(** [radio.Radio]; the [repo] pointer is passed to the operations that use
    it, the mutex serialises them. *)
Record Radio := MkRadio {
  mood : string;
  recentlyPlayed : list Z;
  maxRecent : Z;
  rng : G
}.

(** [NewRadio]; [seed] is [time.Now().UnixNano()]. *)
Definition NewRadio (seed : Z) (m : string) : Radio :=
  MkRadio m [] DefaultMaxRecent (NewSource seed).

(** The partition loop of [shuffleWithRecencyLocked]: one pass, appending
    to [recent] or to [nonRecent]. *)
Fixpoint partitionRecent (recentSet : gset Z) (ts nonRecent recent : list Track)
  : list Track * list Track :=
  match ts with
  | [] => (nonRecent, recent)
  | track :: ts' =>
      if decide (ID track ∈ recentSet)
      then partitionRecent recentSet ts' nonRecent (recent ++ [track])
      else partitionRecent recentSet ts' (nonRecent ++ [track]) recent
  end.

(** [for i := len(s) - 1; i > 0; i-- { j := rng.Intn(i + 1); swap }],
    entered at index [i]. *)
Fixpoint fisherYates {A} (i : nat) (g : G) (s : list A) : option (list A * G) :=
  match i with
  | O => Some (s, g)
  | S i' =>
      let '(j, g') := Intn g (Z.of_nat i + 1) in
      s' ← swap s (Z.of_nat i) j;
      fisherYates i' g' s'
  end.

(** [Radio.shuffleWithRecencyLocked]: the slice after the call and the
    radio with its advanced generator. *)
Definition shuffleWithRecencyLocked (r : Radio) (ts : list Track)
  : option (list Track * Radio) :=
  let recentSet : gset Z := list_to_set (recentlyPlayed r) in
  let '(nonRecent, recent) := partitionRecent recentSet ts [] [] in
  '(nonRecent', g') ← fisherYates (length nonRecent - 1) (rng r) nonRecent;
  let '(ts1, idx) := writeFrom 0 nonRecent' ts in
  let '(ts2, _) := writeFrom idx recent ts1 in
  Some (ts2, MkRadio (mood r) (recentlyPlayed r) (maxRecent r) g').

(** [Radio.GetPlaylist]: the result and the radio afterwards. *)
Definition GetPlaylist (repo : Repository) (r : Radio) (instrumentalOnly : bool)
  : option (Result (list Track) * Radio) :=
  match GetByMood repo (mood r) instrumentalOnly with
  | Err e => Some (Err e, r)
  | Ok ts =>
      if decide (length ts = 0) then Some (Ok ts, r)
      else
        '(shuffled, r') ← shuffleWithRecencyLocked r ts;
        Some (Ok shuffled, r')
  end.

(** The scan [for _, id := range r.recentlyPlayed { if id == trackID ... }] *)
Fixpoint alreadyRecent (ids : list Z) (trackID : Z) : bool :=
  match ids with
  | [] => false
  | i :: ids' => if decide (i = trackID) then true else alreadyRecent ids' trackID
  end.

(** [Radio.RecordPlay] *)
Definition RecordPlay (r : Radio) (trackID : Z) : Radio :=
  if alreadyRecent (recentlyPlayed r) trackID then r
  else
    let appended := recentlyPlayed r ++ [trackID] in
    MkRadio (mood r)
            (if decide (maxRecent r < Z.of_nat (length appended))%Z
             then drop 1 appended else appended)
            (maxRecent r) (rng r).

(** *** [radio.Manager]: one radio per mood, created on first use *)

Abbreviation Manager := (gmap string Radio).

Definition NewManager : Manager := ∅.

(** [Manager.GetRadio]; [seed] is the clock reading a new radio would be
    seeded with. *)
Definition GetRadio (m : Manager) (seed : Z) (md : string) : Radio * Manager :=
  match m !! md with
  | Some r => (r, m)
  | None => let r := NewRadio seed md in (r, <[md := r]> m)
  end.

(** [Manager.GetPlaylist]; the radio's new state is stored back under its
    mood (the Go map holds a pointer to the mutated radio). *)
Definition ManagerGetPlaylist (repo : Repository) (m : Manager) (seed : Z)
    (md : string) (instrumentalOnly : bool)
  : option (Result (list Track) * Manager) :=
  let '(r, m') := GetRadio m seed md in
  '(res, r') ← GetPlaylist repo r instrumentalOnly;
  Some (res, <[md := r']> m').

(** [Manager.RecordPlay] *)
Definition ManagerRecordPlay (m : Manager) (seed : Z) (md : string) (trackID : Z)
  : Manager :=
  let '(r, m') := GetRadio m seed md in
  <[md := RecordPlay r trackID]> m'.

(** The windows [RecordPlay] builds from the empty one: distinct IDs, at
    most [maxRecent] of them. *)
Definition windowOK (r : Radio) : Prop :=
  NoDup (recentlyPlayed r)
  ∧ (Z.of_nat (length (recentlyPlayed r)) ≤ maxRecent r)%Z.

(** The registries [GetRadio] builds from the empty one: each radio sits
    under its own mood and has the default window size. *)
Definition registryOK (m : Manager) : Prop :=
  ∀ md r, m !! md = Some r →
    mood r = md ∧ maxRecent r = DefaultMaxRecent ∧ windowOK r.

End Radio.
Arguments Radio G : clear implicits.

(** The registry's map from mood to radio. *)
Abbreviation Manager G := (gmap string (Radio G)).

(** A concrete generator for running the model: a linear congruential
    sequence reduced into the requested range. *)
Definition lcgIntn (g n : Z) : Z * Z :=
  ((g `div` 65536) `mod` n, (g * 1103515245 + 12345) `mod` 2147483648)%Z.

#[global] Program Instance lcgSource : RandSource Z := {
  NewSource seed := (seed `mod` 2147483648)%Z;
  Intn := lcgIntn
}.
Next Obligation. intros g n Hn. simpl. apply Z.mod_pos_bound. lia. Qed.

End radio.

(** ** The functions of Go's [strings] package used by the handlers *)

Module gostrings.

(** [strings.HasPrefix(s, prefix)] *)
Definition HasPrefix (s pre : string) : bool := String.prefix pre s.

(** [strings.TrimPrefix(s, prefix)] *)
Definition TrimPrefix (s pre : string) : string :=
  if HasPrefix s pre
  then String.substring (String.length pre) (String.length s - String.length pre) s
  else s.

(** [strings.Split(s, "/")]: one more part than there are separators. *)
Fixpoint Split (s : string) : list string :=
  match s with
  | EmptyString => [EmptyString]
  | String c s' =>
      if decide (c = "/"%char) then EmptyString :: Split s'
      else match Split s' with
           | part :: parts => String c part :: parts
           | [] => [String c EmptyString]
           end
  end.

(** [strings.Trim(s, "/")]: trailing, then leading slashes are cut. *)
Fixpoint TrimRightSlash (s : string) : string :=
  match s with
  | EmptyString => EmptyString
  | String c s' =>
      match TrimRightSlash s' with
      | EmptyString => if decide (c = "/"%char) then EmptyString else String c EmptyString
      | t => String c t
      end
  end.

Fixpoint TrimLeftSlash (s : string) : string :=
  match s with
  | EmptyString => EmptyString
  | String c s' => if decide (c = "/"%char) then TrimLeftSlash s' else s
  end.

Definition TrimSlash (s : string) : string := TrimLeftSlash (TrimRightSlash s).

(** A path segment: no ["/"] in it. *)
Fixpoint noSlash (s : string) : bool :=
  match s with
  | EmptyString => true
  | String c s' => negb (bool_decide (c = "/"%char)) && noSlash s'
  end.

End gostrings.

(** ** [strconv.ParseInt(s, 10, 64)] *)

Module gostrconv.

Definition digitVal (c : ascii) : option Z :=
  let n := Z.of_N (N_of_ascii c) in
  if decide (48 ≤ n ≤ 57)%Z then Some (n - 48)%Z else None.

(** The digit loop of [ParseUint] in base 10; any other byte is a syntax
    error. *)
Fixpoint parseDigits (s : string) (acc : Z) : option Z :=
  match s with
  | EmptyString => Some acc
  | String c s' => d ← digitVal c; parseDigits s' (acc * 10 + d)%Z
  end.

Definition ParseUint (s : string) : option Z :=
  match s with
  | EmptyString => None
  | _ => parseDigits s 0
  end.

(** [ParseInt]: an optional sign, then [ParseUint]; [None] is a returned
    error, syntax or range (the magnitude must fit [int64]). *)
Definition ParseInt (s : string) : option Z :=
  match s with
  | EmptyString => None
  | String c s' =>
      let '(neg, digits) :=
        if decide (c = "+"%char) then (false, s')
        else if decide (c = "-"%char) then (true, s')
        else (false, s) in
      un ← ParseUint digits;
      if neg
      then (if decide (un ≤ 2 ^ 63)%Z then Some (- un)%Z else None)
      else (if decide (un < 2 ^ 63)%Z then Some un else None)
  end.

End gostrconv.

(** ** Package cache: the TTL key-value store *)

Module cache.
Import gostrings.

(** [time.Duration] constants, in nanoseconds. *)
Definition Minute : Z := 60 * 1000000000.
Definition DefaultTTL : Z := 5 * Minute.
Definition CleanupInterval : Z := 1 * Minute.

Definition KeyMoodsList : string := "moods:list".

(** [PlaylistKey]: [fmt.Sprintf("playlist:%s", mood)] *)
Definition PlaylistKey (mood : string) : string := "playlist:" +:+ mood.

Section Cache.
(** The type of the stored values ([any] in the source). *)
Context {V : Type}.

Record entry := MkEntry {
  value : V;
  expiresAt : Z
}.

(** [cache.Cache]: the item map and the two atomic counters. *)
Record Cache := MkCache {
  items : gmap string entry;
  hits : Z;
  misses : Z
}.

(** [New] *)
Definition New : Cache := MkCache ∅ 0 0.

(** [now.After(e.expiresAt)] *)
Definition After (now t : Z) : bool := bool_decide (t < now)%Z.

(** [Cache.evictExpired] *)
Definition evictExpired (c : Cache) (now : Z) : Cache :=
  MkCache (filter (λ kv, After now (expiresAt kv.2) = false) (items c))
          (hits c) (misses c).

(** [Cache.Get]: the value when found and fresh, and the cache with its
    counter bumped. *)
Definition Get (c : Cache) (key : string) (now : Z) : option V * Cache :=
  match items c !! key with
  | Some e =>
      if After now (expiresAt e)
      then (None, MkCache (items c) (hits c) (misses c + 1))
      else (Some (value e), MkCache (items c) (hits c + 1) (misses c))
  | None => (None, MkCache (items c) (hits c) (misses c + 1))
  end.

(** [Cache.Set] (the name [Set] is reserved) *)
Definition Set_ (c : Cache) (key : string) (v : V) (now : Z) : Cache :=
  MkCache (<[key := MkEntry v (now + DefaultTTL)]> (items c)) (hits c) (misses c).

(** [Cache.InvalidateMoods]: drop the mood list, then every key that
    starts with "playlist:". *)
Definition InvalidateMoods (c : Cache) : Cache :=
  MkCache (filter (λ kv, HasPrefix kv.1 "playlist:" = false)
                  (delete KeyMoodsList (items c)))
          (hits c) (misses c).

End Cache.
Arguments entry V : clear implicits.
Arguments Cache V : clear implicits.

End cache.

(** ** Package metrics: the process-wide counters used by the handler *)

Module metrics.

Record Metrics := MkMetrics {
  playsTotal : Z
}.

(** [Metrics.RecordPlay]: [atomic.AddUint64(&m.playsTotal, 1)] *)
Definition RecordPlay (m : Metrics) : Metrics :=
  MkMetrics ((playsTotal m + 1) `mod` 2 ^ 64)%Z.

End metrics.

(** ** Package api: the HTTP handlers *)

Module api.
Import inventory gostrings.

(** [api.MoodInfo]; the derived [TotalMins] (a float64) is not carried. *)
Record MoodInfo := MkMoodInfo {
  Name : string;
  DisplayName : string;
  TrackCount : Z
}.

(** [api.PlaylistTrack] *)
Record PlaylistTrack := MkPlaylistTrack {
  pt_ID : Z;
  pt_FilePath : string;
  pt_AudioURL : string;
  pt_Title : option string;
  pt_Artist : option string;
  pt_Energy : string;
  pt_Intensity : option Z;
  pt_Lyrics : option string
}.

(** [toPlaylistTracks] *)
Definition toPlaylistTracks (ts : list Track) : list PlaylistTrack :=
  (λ t, MkPlaylistTrack (ID t) (FilePath t) (AudioURL t) (Title t) (Artist t)
                        (Energy t) (Intensity t) (Lyrics t)) <$> ts.

(** What the handlers put into the cache. *)
Inductive CachedValue :=
| CachedMoods (result : list MoodInfo)
| CachedPlaylist (slim : list PlaylistTrack).

(** [validMoods] and [validEventTypes]: Go maps read with the zero value
    [false] for an absent key. *)
Definition validMoods : gmap string bool :=
  list_to_map [("focus", true); ("calm", true); ("late_night", true); ("energize", true)].

Definition validEventTypes : gmap string bool :=
  list_to_map [(EventPlay, true); (EventSkip, true); (EventComplete, true)].

Definition mapBool (m : gmap string bool) (k : string) : bool :=
  default false (m !! k).

(** What a handler wrote to the [http.ResponseWriter]. *)
Inductive Payload :=
| Text (msg : string)
| JSON (v : CachedValue).

Record Response := MkResponse {
  StatusCode : Z;
  XCache : option string;
  Body : Payload
}.

Definition StatusOK : Z := 200.
Definition StatusBadRequest : Z := 400.
Definition StatusNotFound : Z := 404.
Definition StatusInternalServerError : Z := 500.
Definition StatusMethodNotAllowed : Z := 405.

(** [http.Error(w, msg, code)] *)
Definition httpError (msg : string) (code : Z) : Response :=
  MkResponse code None (Text msg).

(** The request body of a play report as [recordPlay] reads it.
    [NoBody]: [r.Body] is nil, the read failed or no byte was read, so
    [json.Unmarshal] is not called.  [encoding/json] is not part of the
    repository: [json.Unmarshal] checks the syntax of the whole input
    before it stores anything, so a syntax error ([Malformed]) leaves [evt]
    at its zero value; otherwise [Decoded] holds [evt] as the decoder
    filled it (its error, if any, is discarded). *)
Inductive RequestBody :=
| NoBody
| Malformed
| Decoded (evt : ListenEvent).

Section Handler.
Context {G : Type} `{radio.RandSource G}.

(** [api.Handler] with its collaborators' state; [metrics] is the
    singleton behind [metrics.Get()]. *)
Record Handler := MkHandler {
  repo : Repository;
  radio : radio.Manager G;
  audioResolver : string → string * bool;
  cache : cache.Cache CachedValue;
  metrics : metrics.Metrics
}.

Definition setAudioURL (t : Track) (url : string) : Track :=
  MkTrack (ID t) (FilePath t) url (Title t) (Artist t) (Mood t) (Energy t)
          (TempoBPM t) (HasVocals t) (MusicalKey t) (Intensity t)
          (TimeAffinity t) (Lyrics t) (DurationSeconds t) (Status t)
          (CreatedAt t) (PlayCount t) (LastPlayedAt t).

(** The cache key of [getPlaylist]. *)
Definition cacheKey (mood : string) (instrumentalOnly : bool) : string :=
  if instrumentalOnly then cache.PlaylistKey mood +:+ ":instrumental"
  else cache.PlaylistKey mood.

(** [Handler.getPlaylist] *)
Definition getPlaylist (h : Handler) (mood : string) (instrumentalOnly : bool) (now : Z)
  : option (Response * Handler) :=
  let key := cacheKey mood instrumentalOnly in
  let '(cached, c1) := cache.Get (cache h) key now in
  match cached with
  | Some v =>
      Some (MkResponse StatusOK (Some "HIT") (JSON v),
            MkHandler (repo h) (radio h) (audioResolver h) c1 (metrics h))
  | None =>
      '(res, mgr) ← radio.ManagerGetPlaylist (repo h) (radio h) now mood instrumentalOnly;
      match res with
      | Err _ =>
          Some (httpError "Internal error" StatusInternalServerError,
                MkHandler (repo h) mgr (audioResolver h) c1 (metrics h))
      | Ok ts =>
          let ts' := (λ t, setAudioURL t (audioResolver h (FilePath t)).1) <$> ts in
          let slim := toPlaylistTracks ts' in
          let c2 := if decide (0 < length slim)
                    then cache.Set_ c1 key (CachedPlaylist slim) now else c1 in
          Some (MkResponse StatusOK (Some "MISS") (JSON (CachedPlaylist slim)),
                MkHandler (repo h) mgr (audioResolver h) c2 (metrics h))
      end
  end.

(** [Handler.handleMoods]; [instrumental] is
    [r.URL.Query().Get("instrumental")]. *)
Definition handleMoods (h : Handler) (urlPath instrumental : string) (now : Z)
  : option (Response * Handler) :=
  let path := TrimPrefix urlPath "/api/moods/" in
  let parts := Split path in
  if decide (length parts < 2) then Some (httpError "Not found" StatusNotFound, h)
  else if negb (bool_decide (parts !! 1 = Some "playlist"))
  then Some (httpError "Not found" StatusNotFound, h)
  else
    let mood := default "" (parts !! 0) in
    if negb (mapBool validMoods mood)
    then Some (httpError "Unknown mood" StatusNotFound, h)
    else getPlaylist h mood (bool_decide (instrumental = "true")) now.

(** The decoding and defaulting steps of [recordPlay]. *)
Definition decodeEvent (body : RequestBody) (trackID : Z) : ListenEvent :=
  let evt := match body with
             | NoBody | Malformed => zeroListenEvent
             | Decoded e => e
             end in
  MkListenEvent trackID (EvMood evt)
                (if decide (EventType evt = "") then EventPlay else EventType evt)
                (ListenSeconds evt) (PlaylistPosition evt).

(** [evt.Mood] after the [GetByID] lookup. *)
Definition fillMood (evt : ListenEvent) (track : option Track) : ListenEvent :=
  match track with
  | Some t =>
      if decide (EvMood evt = "")
      then MkListenEvent (EvTrackID evt) (Mood t) (EventType evt)
                         (ListenSeconds evt) (PlaylistPosition evt)
      else evt
  | None => evt
  end.

(** The statements [recordPlay] runs between [BeginTx] and [Commit]; an
    [Err] is an early return, on which the deferred [tx.Rollback()] drops
    the working copy. *)
Definition recordPlayTx (r : Repository) (evt : ListenEvent) (trackID now : Z)
  : Result Repository :=
  try tx := BeginTx r in
  try tx1 := (if negb (bool_decide (EventType evt = EventSkip))
              then UpdatePlayStatsTx r tx trackID now else Ok tx) in
  try tx2 := (if negb (bool_decide (EvMood evt = ""))
              then RecordListenEventTx r tx1 evt now else Ok tx1) in
  Commit r tx2.

(** The [GetByID] lookup of [recordPlay]: a failure is logged and leaves
    [track] nil. *)
Definition lookupTrack (r : Repository) (trackID : Z) : option Track :=
  match GetByID r trackID with
  | Ok t => t
  | Err _ => None
  end.

(** The event [recordPlay] works with once the mood is filled in. *)
Definition reportedEvent (r : Repository) (body : RequestBody) (trackID : Z)
  : ListenEvent :=
  fillMood (decodeEvent body trackID) (lookupTrack r trackID).

(** [Handler.recordPlay] *)
Definition recordPlay (h : Handler) (body : RequestBody) (trackID : Z) (now : Z)
  : Response * Handler :=
  let evt := decodeEvent body trackID in
  if negb (mapBool validEventTypes (EventType evt))
  then (httpError "invalid event type" StatusBadRequest, h)
  else
    let track := lookupTrack (repo h) trackID in
    let evt := fillMood evt track in
    match recordPlayTx (repo h) evt trackID now with
    | Err _ => (httpError "failed to record play" StatusInternalServerError, h)
    | Ok repo' =>
        if negb (bool_decide (EventType evt = EventSkip))
        then
          (MkResponse StatusOK None (Text "ok"),
           MkHandler repo'
             (match track with
              | Some t => radio.ManagerRecordPlay (radio h) now (Mood t) trackID
              | None => radio h
              end)
             (audioResolver h) (cache h) (metrics.RecordPlay (metrics h)))
        else
          (MkResponse StatusOK None (Text "ok"),
           MkHandler repo' (radio h) (audioResolver h) (cache h) (metrics h))
    end.

(** [Handler.handleTracks]; [method] is [r.Method]. *)
Definition handleTracks (h : Handler) (urlPath method : string) (body : RequestBody)
    (now : Z) : Response * Handler :=
  let path := TrimPrefix urlPath "/api/tracks/" in
  let parts := Split path in
  if decide (length parts < 2) then (httpError "Not found" StatusNotFound, h)
  else
    match gostrconv.ParseInt (default "" (parts !! 0)) with
    | None => (httpError "Invalid track ID" StatusBadRequest, h)
    | Some trackID =>
        if decide (parts !! 1 = Some "play")
        then
          if decide (method = "POST") then recordPlay h body trackID now
          else (httpError "Method not allowed" StatusMethodNotAllowed, h)
        else (httpError "Not found" StatusNotFound, h)
    end.

(** Every radio of the registry sits under its own mood, as [GetRadio]
    creates them. *)
Definition wfManager (m : radio.Manager G) : Prop :=
  ∀ md r, m !! md = Some r → radio.mood r = md.

End Handler.
Arguments Handler G : clear implicits.

End api.

(** ** Package audio: the local resolver *)

Module audio.
Import gostrings.

Section Resolver.
(** [path.Clean] of Go's [path] package, which is not part of the
    repository. *)
Variable Clean : string → string.

(** [for strings.HasPrefix(cleaned, "../") { cleaned =
    strings.TrimPrefix(cleaned, "../") }] *)
Fixpoint stripParents (s : string) : string :=
  match s with
  | String _ (String _ (String _ rest)) =>
      if HasPrefix s "../" then stripParents rest else s
  | _ => s
  end.

(** [sanitizePath] *)
Definition sanitizePath (filePath : string) : string :=
  stripParents (TrimPrefix (Clean filePath) "/").

(** [audio.LocalResolver] *)
Record LocalResolver := MkLocalResolver {
  BasePath : string
}.

(** [NewResolver] *)
Definition NewResolver (basePath : string) : LocalResolver :=
  MkLocalResolver ("/" +:+ TrimSlash basePath).

(** [LocalResolver.ResolveURL]: the URL and whether an error is returned
    (never). *)
Definition ResolveURL (r : LocalResolver) (filePath : string) : string * bool :=
  (BasePath r +:+ "/" +:+ sanitizePath filePath, false).

End Resolver.

End audio.

(** ** A small catalog for running the model

    Four approved "focus" tracks and one "calm" track, with the play
    statistics of the radio package's test database. *)

Module sample.
Import inventory.

Definition row (i : Z) (path md : string) (secs : Z) : TrackRow :=
  MkTrackRow i path None (Some "Drift FM") md "low" None 0 None (Some 5%Z)
             (Some "any") None secs "approved" 0.

Definition sampleDB : DB :=
  MkDB [row 1 "focus/track1.mp3" "focus" 180;
        row 2 "focus/track2.mp3" "focus" 240;
        row 3 "focus/track3.mp3" "focus" 200;
        row 4 "focus/track4.mp3" "focus" 210;
        row 5 "calm/track1.mp3" "calm" 200]
       (list_to_map [("focus/track1.mp3", MkPlayStat 10 None);
                     ("focus/track3.mp3", MkPlayStat 5 None);
                     ("calm/track1.mp3", MkPlayStat 2 None)])
       [].

Definition sampleRepo : Repository := MkRepository sampleDB noFaults.

(** The track IDs of a store or engine answer. *)
Definition idsOf (res : Result (list Track)) : list Z :=
  match res with
  | Ok ts => ID <$> ts
  | Err _ => []
  end.

(** The "focus" radio after tracks 1 and 2 were played. *)
Definition sampleRadio : radio.Radio Z :=
  radio.MkRadio "focus" [1; 2]%Z 3 42%Z.


(** A freshly started server over the sample catalog. *)
Definition sampleHandler : api.Handler Z :=
  api.MkHandler sampleRepo radio.NewManager (λ path, ("/audio/" +:+ path, false))
                cache.New (metrics.MkMetrics 0).

(** The same server when every insert into [listen_events] fails. *)
Definition listenFaults : Faults := MkFaults false false false false true false.

Definition faultyHandler : api.Handler Z :=
  api.MkHandler (MkRepository sampleDB listenFaults) radio.NewManager
                (λ path, ("/audio/" +:+ path, false))
                cache.New (metrics.MkMetrics 0).

(** Report bodies: [{"event":"play","listen_seconds":30,"mood":"focus"}],
    [{"event":"skip","listen_seconds":45,"position":2}] and
    [{"event":"play","listen_seconds":-5,"mood":"focus"}]. *)
Definition playBody : api.RequestBody :=
  api.Decoded (MkListenEvent 0 "focus" "play" 30 None).

Definition skipBody : api.RequestBody :=
  api.Decoded (MkListenEvent 0 "" "skip" 45 (Some 2%Z)).

Definition negativeBody : api.RequestBody :=
  api.Decoded (MkListenEvent 0 "focus" "play" (-5) None).

(** The same server when the catalog lookup [GetByID] fails. *)
Definition lookupFaults : Faults := MkFaults true false false false false false.

Definition blindHandler : api.Handler Z :=
  api.MkHandler (MkRepository sampleDB lookupFaults) radio.NewManager
                (λ path, ("/audio/" +:+ path, false))
                cache.New (metrics.MkMetrics 0).

(** A report for a "focus" track that names the mood "calm". *)
Definition calmBody : api.RequestBody :=
  api.Decoded (MkListenEvent 0 "calm" "complete" 200 None).

End sample.

(** * Properties *)

(** ** The playlist engine *)

Section RadioProperties.
Import inventory radio.
Context {G : Type} `{RandSource G}.

(** *** Slices *)

Lemma index_Some {A} (s : list A) (i : Z) :
  (0 ≤ i < Z.of_nat (length s))%Z → ∃ a, index s i = Some a ∧ s !! Z.to_nat i = Some a.
Proof.
  intros [Hlo Hhi]. unfold index. rewrite decide_True by done.
  destruct (lookup_lt_is_Some_2 s (Z.to_nat i)) as [a Ha]; [lia|]. eauto.
Qed.

Lemma insert_head_Permutation {A} (l : list A) (j : nat) (b x : A) :
  l !! j = Some b → b :: <[j := x]> l ≡ₚ x :: l.
Proof.
  revert j. induction l as [|y l IH]; intros [|j] Hj; simplify_eq/=.
  - apply perm_swap.
  - rewrite perm_swap. rewrite (IH j Hj). apply perm_swap.
Qed.

Lemma insert_insert_Permutation {A} (l : list A) (i j : nat) (a b : A) :
  l !! i = Some a → l !! j = Some b → <[j := a]> (<[i := b]> l) ≡ₚ l.
Proof.
  revert i j. induction l as [|y l IH]; intros [|i] [|j] Hi Hj; simplify_eq/=.
  - done.
  - by apply insert_head_Permutation.
  - by apply insert_head_Permutation.
  - f_equiv. by apply IH.
Qed.

Lemma swap_Permutation {A} (s s' : list A) (i j : Z) :
  swap s i j = Some s' → s' ≡ₚ s.
Proof.
  unfold swap, index. intros Hs.
  destruct (decide (0 ≤ i)%Z); simplify_option_eq.
  by apply insert_insert_Permutation.
Qed.

Lemma swap_is_Some {A} (s : list A) (i j : Z) :
  (0 ≤ i < Z.of_nat (length s))%Z → (0 ≤ j < Z.of_nat (length s))%Z →
  is_Some (swap s i j).
Proof.
  intros Hi Hj. unfold swap.
  destruct (index_Some s i Hi) as (a & -> & _).
  destruct (index_Some s j Hj) as (b & -> & _). simpl. eauto.
Qed.

Lemma filter_none {A} (P : A → Prop) `{∀ x, Decision (P x)} (l : list A) :
  (∀ x, x ∈ l → ¬ P x) → filter P l = [].
Proof.
  induction l as [|a l IH]; intros Hl; [done|].
  rewrite filter_cons_False by (apply Hl; left).
  apply IH. intros x Hx. apply Hl. by right.
Qed.

Lemma writeFrom_spec {A} (src dst : list A) (idx : nat) :
  idx + length src ≤ length dst →
  writeFrom idx src dst
  = (take idx dst ++ src ++ drop (idx + length src) dst, idx + length src).
Proof.
  revert idx dst. induction src as [|t src IH]; intros idx dst Hlen; simpl in *.
  - by rewrite Nat.add_0_r, take_drop.
  - rewrite IH by (rewrite length_insert; lia).
    destruct (lookup_lt_is_Some_2 dst idx) as [d Hd]; [lia|].
    rewrite (take_S_r (<[idx:=t]> dst) idx t)
      by (apply list_lookup_insert_eq; lia).
    rewrite take_insert_ge by lia. rewrite drop_insert_lt by lia.
    rewrite <- app_assoc. simpl.
    by replace (S (idx + length src)) with (idx + S (length src)) by lia.
Qed.

(** *** The shuffle *)

Lemma partitionRecent_filter (recentSet : gset Z) (ts nonRecent recent : list Track) :
  partitionRecent recentSet ts nonRecent recent
  = (nonRecent ++ filter (λ t, ID t ∉ recentSet) ts,
     recent ++ filter (λ t, ID t ∈ recentSet) ts).
Proof.
  revert nonRecent recent. induction ts as [|t ts IH]; intros nonRecent recent; simpl.
  - by rewrite !app_nil_r.
  - destruct (decide (ID t ∈ recentSet)) as [Hin|Hout];
      rewrite IH, !filter_cons; repeat case_decide; try done;
      by rewrite <- app_assoc.
Qed.

Lemma fisherYates_Permutation {A} (i : nat) (g : G) (s : list A) :
  i = 0 ∨ i < length s →
  ∃ s' g', fisherYates i g s = Some (s', g') ∧ s' ≡ₚ s.
Proof.
  revert g s. induction i as [|i IH]; intros g s Hi.
  - exists s, g. done.
  - destruct Hi as [|Hi]; [done|].
    cbn [fisherYates].
    pose proof (Intn_range g (Z.of_nat (S i) + 1) ltac:(lia)) as Hj.
    destruct (Intn g (Z.of_nat (S i) + 1)) as [j g1]. simpl in Hj.
    destruct (swap_is_Some s (Z.of_nat (S i)) j) as [s1 Hs1]; [lia..|].
    rewrite Hs1. simpl.
    pose proof (swap_Permutation _ _ _ _ Hs1) as Hp.
    destruct (IH g1 s1) as (s' & g' & Hfy & Hp').
    { right. rewrite (Permutation_length Hp). lia. }
    exists s', g'. split; [done|]. by rewrite Hp'.
Qed.

Lemma shuffleWithRecencyLocked_spec (r : Radio G) (ts : list Track) :
  ∃ sh g',
    shuffleWithRecencyLocked r ts
    = Some (sh ++ filter (λ t, ID t ∈ recentlyPlayed r) ts,
            MkRadio (mood r) (recentlyPlayed r) (maxRecent r) g')
    ∧ sh ≡ₚ filter (λ t, ID t ∉ recentlyPlayed r) ts.
Proof.
  unfold shuffleWithRecencyLocked.
  rewrite partitionRecent_filter. simpl.
  set (S := list_to_set (recentlyPlayed r) : gset Z).
  assert (filter (λ t, ID t ∈ S) ts = filter (λ t, ID t ∈ recentlyPlayed r) ts) as HinE.
  { apply list_filter_iff. intros t. unfold S. by rewrite elem_of_list_to_set. }
  assert (filter (λ t, ID t ∉ S) ts = filter (λ t, ID t ∉ recentlyPlayed r) ts) as HoutE.
  { apply list_filter_iff. intros t. unfold S. by rewrite elem_of_list_to_set. }
  rewrite HinE, HoutE.
  set (nonRecent := filter (λ t, ID t ∉ recentlyPlayed r) ts).
  set (recent := filter (λ t, ID t ∈ recentlyPlayed r) ts).
  assert (length nonRecent + length recent = length ts) as Hlen.
  { unfold nonRecent, recent.
    rewrite Nat.add_comm, <- length_app.
    apply Permutation_length.
    apply (filter_app_complement (λ t, ID t ∈ recentlyPlayed r)). }
  destruct (fisherYates_Permutation (length nonRecent - 1) (rng r) nonRecent)
    as (sh & g' & -> & Hp); [lia|].
  simpl. exists sh, g'. split; [|done].
  pose proof (Permutation_length Hp) as Hlsh.
  rewrite writeFrom_spec by lia. rewrite take_0. simpl.
  rewrite writeFrom_spec by (rewrite length_app, length_drop; lia).
  rewrite take_app_length.
  rewrite drop_ge by (rewrite length_app, length_drop; lia).
  by rewrite app_nil_r.
Qed.

End RadioProperties.

Section RadioClaims.
Import inventory radio.
Context {G : Type} `{RandSource G}.

Lemma GetPlaylist_shuffled (repo : Repository) (r : Radio G) (instrumentalOnly : bool)
    (ts : list Track) :
  GetByMood repo (mood r) instrumentalOnly = Ok ts →
  ∃ sh r',
    GetPlaylist repo r instrumentalOnly
    = Some (Ok (sh ++ filter (λ t, ID t ∈ recentlyPlayed r) ts), r')
    ∧ sh ≡ₚ filter (λ t, ID t ∉ recentlyPlayed r) ts
    ∧ recentlyPlayed r' = recentlyPlayed r
    ∧ mood r' = mood r ∧ maxRecent r' = maxRecent r.
Proof.
  intros Hts. unfold GetPlaylist. rewrite Hts.
  destruct (decide (length ts = 0)) as [Hz|Hnz].
  - apply length_zero_iff_nil in Hz. subst ts. by exists [], r.
  - destruct (shuffleWithRecencyLocked_spec r ts) as (sh & g' & -> & Hp).
    simpl. eauto 10.
Qed.

(** C1 (shuffle validity): for a non-empty list [ts] of eligible tracks
    returned by the store, [GetPlaylist] returns without error a playlist
    that is a permutation of [ts]; its track IDs are a permutation of the
    IDs of [ts] (none omitted, none added), and when the IDs of [ts] are
    distinct so are the playlist's. *)
Theorem GetPlaylist_permutation (repo : Repository) (r : Radio G)
    (instrumentalOnly : bool) (ts : list Track) :
  GetByMood repo (mood r) instrumentalOnly = Ok ts →
  ts ≠ [] →
  ∃ playlist r',
    GetPlaylist repo r instrumentalOnly = Some (Ok playlist, r')
    ∧ playlist ≡ₚ ts
    ∧ ID <$> playlist ≡ₚ ID <$> ts
    ∧ (∀ x, x ∈ (ID <$> playlist) ↔ x ∈ (ID <$> ts))
    ∧ (NoDup (ID <$> ts) → NoDup (ID <$> playlist)).
Proof.
  intros Hts _.
  destruct (GetPlaylist_shuffled repo r instrumentalOnly ts Hts)
    as (sh & r' & Hget & Hp & _).
  eexists _, r'. split; [exact Hget|].
  assert (sh ++ filter (λ t, ID t ∈ recentlyPlayed r) ts ≡ₚ ts) as Hperm.
  { rewrite Hp, Permutation_app_comm.
    apply (filter_app_complement (λ t, ID t ∈ recentlyPlayed r)). }
  split; [done|]. split; [by rewrite Hperm|].
  split; [intros x; by rewrite Hperm|]. by rewrite Hperm.
Qed.

(** C2 (recency tail): with a non-empty recency window and at least one
    eligible track outside it, every track of the playlist whose ID is in
    the window sits at a strictly larger position than every track whose
    ID is not, and the in-window tracks appear in the order in which the
    store returned them. *)
Theorem GetPlaylist_recency_tail (repo : Repository) (r : Radio G)
    (instrumentalOnly : bool) (ts : list Track) :
  GetByMood repo (mood r) instrumentalOnly = Ok ts →
  recentlyPlayed r ≠ [] →
  (∃ u, u ∈ ts ∧ ID u ∉ recentlyPlayed r) →
  ∃ playlist r',
    GetPlaylist repo r instrumentalOnly = Some (Ok playlist, r')
    ∧ (∀ i j t u,
         playlist !! i = Some t → playlist !! j = Some u →
         ID t ∈ recentlyPlayed r → ID u ∉ recentlyPlayed r → j < i)
    ∧ filter (λ t, ID t ∈ recentlyPlayed r) playlist
      = filter (λ t, ID t ∈ recentlyPlayed r) ts.
Proof.
  intros Hts _ _.
  destruct (GetPlaylist_shuffled repo r instrumentalOnly ts Hts)
    as (sh & r' & Hget & Hp & _).
  eexists _, r'. split; [exact Hget|].
  set (recent := filter (λ t, ID t ∈ recentlyPlayed r) ts).
  assert (∀ t, t ∈ sh → ID t ∉ recentlyPlayed r) as Hsh.
  { intros t Ht. rewrite Hp in Ht. by apply list_elem_of_filter in Ht as [? _]. }
  assert (∀ t, t ∈ recent → ID t ∈ recentlyPlayed r) as Hrc.
  { intros t Ht. by apply list_elem_of_filter in Ht as [? _]. }
  split.
  - intros i j t u Hi Hj Ht Hu.
    apply lookup_app_Some in Hi as [Hi|[Hi _]].
    { destruct (Hsh t); [by eapply list_elem_of_lookup_2|done]. }
    apply lookup_app_Some in Hj as [Hj|[_ Hj]].
    { apply lookup_lt_Some in Hj. lia. }
    destruct Hu. apply Hrc. by eapply list_elem_of_lookup_2.
  - rewrite filter_app.
    replace (filter (λ t, ID t ∈ recentlyPlayed r) sh) with (@nil Track).
    + simpl. unfold recent. by apply list_filter_filter_r.
    + symmetry. apply filter_none. intros t Ht. by apply Hsh.
Qed.

(** *** The recency window *)

Lemma alreadyRecent_elem_of (ids : list Z) (x : Z) :
  alreadyRecent ids x = true ↔ x ∈ ids.
Proof.
  induction ids as [|i ids IH]; simpl.
  - split; [done|]. by intros ?%elem_of_nil.
  - rewrite elem_of_cons. destruct (decide (i = x)) as [->|Hne].
    + split; auto.
    + rewrite IH. split; [auto|]. intros [?|?]; [congruence|done].
Qed.

Lemma RecordPlay_present (r : Radio G) (x : Z) :
  x ∈ recentlyPlayed r → RecordPlay r x = r.
Proof.
  intros Hx. unfold RecordPlay.
  apply alreadyRecent_elem_of in Hx. by rewrite Hx.
Qed.

Lemma RecordPlay_fresh (r : Radio G) (x : Z) :
  x ∉ recentlyPlayed r →
  recentlyPlayed (RecordPlay r x)
  = if decide (maxRecent r < Z.of_nat (length (recentlyPlayed r ++ [x])))%Z
    then drop 1 (recentlyPlayed r ++ [x]) else recentlyPlayed r ++ [x].
Proof.
  intros Hx. unfold RecordPlay.
  destruct (alreadyRecent (recentlyPlayed r) x) eqn:Hal; [|done].
  by apply alreadyRecent_elem_of in Hal.
Qed.

Lemma RecordPlay_maxRecent (r : Radio G) (x : Z) :
  maxRecent (RecordPlay r x) = maxRecent r.
Proof. unfold RecordPlay. by destruct (alreadyRecent _ _). Qed.

Lemma foldl_RecordPlay_maxRecent (r : Radio G) (calls : list Z) :
  maxRecent (foldl RecordPlay r calls) = maxRecent r.
Proof.
  revert r. induction calls as [|x calls IH]; intros r; simpl; [done|].
  by rewrite IH, RecordPlay_maxRecent.
Qed.

Lemma RecordPlay_length_le (r : Radio G) (x : Z) (N : nat) :
  maxRecent r = Z.of_nat N →
  length (recentlyPlayed r) ≤ N →
  length (recentlyPlayed (RecordPlay r x)) ≤ N.
Proof.
  intros HN Hlen. destruct (decide (x ∈ recentlyPlayed r)) as [Hin|Hout].
  - by rewrite RecordPlay_present.
  - rewrite RecordPlay_fresh by done.
    case_decide as Hc; rewrite ?length_drop, length_app in *; simpl in *; lia.
Qed.

Lemma foldl_RecordPlay_length_le (r : Radio G) (calls : list Z) (N : nat) :
  maxRecent r = Z.of_nat N →
  length (recentlyPlayed r) ≤ N →
  length (recentlyPlayed (foldl RecordPlay r calls)) ≤ N.
Proof.
  revert r. induction calls as [|x calls IH]; intros r HN Hlen; simpl; [done|].
  apply IH; [by rewrite RecordPlay_maxRecent|by apply RecordPlay_length_le].
Qed.

Lemma RecordPlay_length_ge (r : Radio G) (x : Z) :
  length (recentlyPlayed r) ≤ length (recentlyPlayed (RecordPlay r x)).
Proof.
  destruct (decide (x ∈ recentlyPlayed r)) as [Hin|Hout].
  - by rewrite RecordPlay_present.
  - rewrite RecordPlay_fresh by done.
    case_decide; rewrite ?length_drop, length_app; simpl; lia.
Qed.

(** While the window is not full nothing has been evicted: every ID
    recorded so far is still in it. *)
Lemma foldl_RecordPlay_not_full (r : Radio G) (N : nat) (calls : list Z) :
  maxRecent r = Z.of_nat N →
  length (recentlyPlayed (foldl RecordPlay r calls)) < N →
  ∀ x, x ∈ calls → x ∈ recentlyPlayed (foldl RecordPlay r calls).
Proof.
  intros HN. induction calls as [|y calls IH] using rev_ind; intros Hlen x Hx.
  { by apply elem_of_nil in Hx. }
  rewrite foldl_snoc in Hlen |- *.
  set (r' := foldl RecordPlay r calls) in *.
  pose proof (RecordPlay_length_ge r' y) as Hge.
  assert (maxRecent r' = Z.of_nat N) as HN'.
  { unfold r'. by rewrite foldl_RecordPlay_maxRecent. }
  destruct (decide (y ∈ recentlyPlayed r')) as [Hin|Hout].
  - rewrite RecordPlay_present in Hlen |- * by done.
    apply elem_of_app in Hx as [Hx|Hx]; [by apply IH|].
    by apply list_elem_of_singleton in Hx as ->.
  - rewrite RecordPlay_fresh in Hlen |- * by done.
    rewrite HN' in Hlen |- *. rewrite length_app in Hlen |- *. simpl in *.
    case_decide as Hc.
    { rewrite length_drop, length_app in Hlen. simpl in Hlen. lia. }
    apply elem_of_app in Hx as [Hx|Hx]; apply elem_of_app; [left|by right].
    apply IH; [lia|done].
Qed.

(** Recording more than [maxRecent] pairwise-distinct IDs fills the
    window, whatever it held before. *)
Lemma foldl_RecordPlay_full (r : Radio G) (N : nat) (ids : list Z) :
  maxRecent r = Z.of_nat N →
  length (recentlyPlayed r) ≤ N →
  NoDup ids →
  N < length ids →
  length (recentlyPlayed (foldl RecordPlay r ids)) = N.
Proof.
  intros HN Hwin Hnd Hlen.
  pose proof (foldl_RecordPlay_length_le r ids N HN Hwin) as Hle.
  destruct (decide (length (recentlyPlayed (foldl RecordPlay r ids)) < N))
    as [Hlt|Hge]; [|lia].
  pose proof (foldl_RecordPlay_not_full r N ids HN Hlt) as Hall.
  assert (ids ⊆+ recentlyPlayed (foldl RecordPlay r ids)) as Hsub.
  { by apply NoDup_submseteq. }
  apply submseteq_length in Hsub. lia.
Qed.

(** Recording pairwise-distinct IDs that are new to the window keeps the
    last [maxRecent] entries of the window extended by them, in the order
    of the calls. *)
Lemma foldl_RecordPlay_distinct (r : Radio G) (N : nat) (ids : list Z) :
  maxRecent r = Z.of_nat N →
  length (recentlyPlayed r) ≤ N →
  NoDup ids →
  (∀ x, x ∈ ids → x ∉ recentlyPlayed r) →
  recentlyPlayed (foldl RecordPlay r ids)
  = drop (length (recentlyPlayed r ++ ids) - N) (recentlyPlayed r ++ ids).
Proof.
  intros HN Hlen. induction ids as [|x ids IH] using rev_ind; intros Hnd Hnew.
  - simpl. rewrite app_nil_r.
    by replace (length (recentlyPlayed r) - N) with 0 by lia.
  - apply NoDup_app in Hnd as (Hnd & Hdisj & _).
    assert (∀ y, y ∈ ids → y ∉ recentlyPlayed r) as Hnew'.
    { intros y Hy. apply Hnew. apply elem_of_app. by left. }
    specialize (IH Hnd Hnew').
    rewrite app_assoc.
    set (L := recentlyPlayed r ++ ids) in *.
    rewrite foldl_snoc.
    assert (x ∉ drop (length L - N) L) as Hfresh.
    { intros Hx. apply subseteq_drop in Hx.
      apply elem_of_app in Hx as [Hx|Hx].
      - apply (Hnew x); [|done]. apply elem_of_app. right. by left.
      - apply (Hdisj x Hx). by left. }
    rewrite RecordPlay_fresh; rewrite IH; [|done].
    rewrite foldl_RecordPlay_maxRecent, HN.
    rewrite !length_app, length_drop. simpl.
    case_decide as Hc.
    + rewrite <- (drop_app_le L [x]) by lia.
      rewrite drop_drop. f_equal. lia.
    + rewrite <- (drop_app_le L [x]) by lia. f_equal. lia.
Qed.

(** C5 (recency bound), as the code has it: for an engine with window
    size [N], after [N + 1] [RecordPlay] calls with pairwise-distinct IDs
    the window holds exactly [N] entries; when none of the IDs is in the
    window before the calls (as on a fresh engine) these are the last [N]
    of them in the order of the calls, the first-recorded ID having been
    evicted from the front.  Whatever the calls, the window never holds
    more than [N] entries, and a [RecordPlay] of an ID already in the
    window changes nothing: the ID keeps its place and is not moved to
    the back. *)
Theorem RecordPlay_recency_bound (r : Radio G) (N : nat) (ids : list Z) :
  maxRecent r = Z.of_nat N →
  length (recentlyPlayed r) ≤ N →
  NoDup ids →
  length ids = N + 1 →
  length (recentlyPlayed (foldl RecordPlay r ids)) = N
  ∧ ((∀ x, x ∈ ids → x ∉ recentlyPlayed r) →
     recentlyPlayed (foldl RecordPlay r ids) = drop 1 ids
     ∧ ∀ x, head ids = Some x → x ∉ recentlyPlayed (foldl RecordPlay r ids))
  ∧ (∀ calls, length (recentlyPlayed (foldl RecordPlay r calls)) ≤ N)
  ∧ (∀ (r0 : Radio G) x, x ∈ recentlyPlayed r0 → RecordPlay r0 x = r0).
Proof.
  intros HN Hwin Hnd Hlen.
  split; [apply foldl_RecordPlay_full; [done..|lia]|].
  split.
  { intros Hnew.
    assert (recentlyPlayed (foldl RecordPlay r ids) = drop 1 ids) as Hw.
    { rewrite (foldl_RecordPlay_distinct r N ids) by done.
      rewrite length_app, Hlen.
      replace (length (recentlyPlayed r) + (N + 1) - N)
        with (length (recentlyPlayed r) + 1) by lia.
      apply drop_app_add. }
    split; [done|]. rewrite Hw.
    intros x Hx. destruct ids as [|y ids]; simplify_eq/=.
    rewrite drop_0. by apply NoDup_cons in Hnd as [? _]. }
  split.
  { intros calls. by apply foldl_RecordPlay_length_le. }
  intros r0 x. apply RecordPlay_present.
Qed.

End RadioClaims.

(** *** The engine on the sample catalog *)

Section RadioExamples.
Import inventory radio sample.

(** The store returns the "focus" tracks least-played first: 2 and 4
    (never played), then 3 (5 plays), then 1 (10 plays). *)
Example GetByMood_sample :
  idsOf (GetByMood sampleRepo "focus" false) = [2; 4; 3; 1]%Z.
Proof. vm_compute. reflexivity. Qed.

(** With window [1; 2] the playlist is 4 and 3 in some order, then 2 and 1
    in store order. *)
Example GetPlaylist_sample :
  (λ p, idsOf p.1) <$> GetPlaylist sampleRepo sampleRadio false
  = Some [3; 4; 2; 1]%Z.
Proof. vm_compute. reflexivity. Qed.

Lemma GetPlaylist_permutation_witness :
  ∃ ts, GetByMood sampleRepo (mood sampleRadio) false = Ok ts ∧ ts ≠ [] ∧
  ∃ playlist r',
    GetPlaylist sampleRepo sampleRadio false = Some (Ok playlist, r')
    ∧ playlist ≡ₚ ts
    ∧ ID <$> playlist ≡ₚ ID <$> ts
    ∧ (∀ x, x ∈ (ID <$> playlist) ↔ x ∈ (ID <$> ts))
    ∧ (NoDup (ID <$> ts) → NoDup (ID <$> playlist)).
Proof.
  eexists. split; [vm_compute; reflexivity|]. split; [discriminate|].
  apply (GetPlaylist_permutation sampleRepo sampleRadio false);
    [vm_compute; reflexivity | discriminate].
Defined.

Lemma GetPlaylist_recency_tail_witness :
  ∃ playlist r',
    GetPlaylist sampleRepo sampleRadio false = Some (Ok playlist, r')
    ∧ (∀ i j t u,
         playlist !! i = Some t → playlist !! j = Some u →
         ID t ∈ recentlyPlayed sampleRadio → ID u ∉ recentlyPlayed sampleRadio →
         j < i)
    ∧ filter (λ t, ID t ∈ recentlyPlayed sampleRadio) playlist
      = filter (λ t, ID t ∈ recentlyPlayed sampleRadio)
               (joinStats sampleDB <$> [row 2 "focus/track2.mp3" "focus" 240;
                                        row 4 "focus/track4.mp3" "focus" 210;
                                        row 3 "focus/track3.mp3" "focus" 200;
                                        row 1 "focus/track1.mp3" "focus" 180]).
Proof.
  apply (GetPlaylist_recency_tail sampleRepo sampleRadio false).
  - vm_compute. reflexivity.
  - discriminate.
  - exists (joinStats sampleDB (row 4 "focus/track4.mp3" "focus" 210)). split.
    + apply list_elem_of_In. simpl. auto.
    + simpl. intros Hin. apply list_elem_of_In in Hin. simpl in Hin.
      destruct Hin as [?|[?|[]]]; discriminate.
Defined.

(** An engine that has played tracks 1 and 2 records four more. *)
Lemma RecordPlay_recency_bound_witness :
  let r := foldl RecordPlay (NewRadio (G := Z) 0 "focus") [1; 2]%Z in
  let ids := [3; 4; 5; 6]%Z in
  recentlyPlayed r = [1; 2]%Z
  ∧ length (recentlyPlayed (foldl RecordPlay r ids)) = 3
  ∧ recentlyPlayed (foldl RecordPlay r ids) = [4; 5; 6]%Z
  ∧ (3%Z ∉ recentlyPlayed (foldl RecordPlay r ids))
  ∧ (∀ calls, length (recentlyPlayed (foldl RecordPlay r calls)) ≤ 3).
Proof.
  cbv zeta. split; [reflexivity|].
  destruct (RecordPlay_recency_bound
              (foldl RecordPlay (NewRadio (G := Z) 0 "focus") [1; 2]%Z)
              3 [3; 4; 5; 6]%Z) as (Hlen & Hnew & Hbound & _).
  - reflexivity.
  - simpl. lia.
  - apply (bool_decide_unpack _). vm_compute. reflexivity.
  - reflexivity.
  - destruct Hnew as [Hw Hhead].
    + intros x Hx Hin. apply list_elem_of_In in Hx, Hin. simpl in Hx, Hin.
      destruct Hx as [<-|[<-|[<-|[<-|[]]]]];
        destruct Hin as [?|[?|[]]]; discriminate.
    + split_and!; [exact Hlen|exact Hw|by apply Hhead|exact Hbound].
Defined.

(** An engine that has played tracks 1, 2 and 3 records 4, 5, 3 and 6:
    four pairwise-distinct IDs, of which 3 is in the window when the calls
    begin.  Its third call finds 3 still present and changes nothing, so
    the window ends as [4; 5; 6]: it is not the last three IDs recorded,
    and 3, recorded just before 6, is no longer in it. *)
Lemma RecordPlay_present_id_not_refreshed :
  maxRecent (foldl RecordPlay (NewRadio (G := Z) 0 "focus") [1; 2; 3]%Z) = 3%Z
  ∧ recentlyPlayed (foldl RecordPlay (NewRadio (G := Z) 0 "focus") [1; 2; 3]%Z)
    = [1; 2; 3]%Z
  ∧ NoDup [4; 5; 3; 6]%Z
  ∧ length [4; 5; 3; 6]%Z = 3 + 1
  ∧ recentlyPlayed
      (foldl RecordPlay (foldl RecordPlay (NewRadio (G := Z) 0 "focus") [1; 2; 3]%Z)
             [4; 5; 3; 6]%Z)
    = [4; 5; 6]%Z
  ∧ recentlyPlayed
      (foldl RecordPlay (foldl RecordPlay (NewRadio (G := Z) 0 "focus") [1; 2; 3]%Z)
             [4; 5; 3; 6]%Z)
    ≠ drop 1 [4; 5; 3; 6]%Z
  ∧ 3%Z ∉ recentlyPlayed
      (foldl RecordPlay (foldl RecordPlay (NewRadio (G := Z) 0 "focus") [1; 2; 3]%Z)
             [4; 5; 3; 6]%Z).
Proof.
  split_and!; [reflexivity|reflexivity| |reflexivity|reflexivity|discriminate|].
  - apply (bool_decide_unpack _). vm_compute. reflexivity.
  - intros Hin. apply list_elem_of_In in Hin. simpl in Hin.
    destruct Hin as [?|[?|[?|[]]]]; discriminate.
Qed.

(** The scenario of the radio package's [TestRecordPlay]. *)
Example RecordPlay_test :
  recentlyPlayed (foldl RecordPlay (NewRadio (G := Z) 0 "focus") [1; 2; 3; 4; 4]%Z)
  = [2; 3; 4]%Z.
Proof. reflexivity. Qed.

End RadioExamples.

(** ** The response cache *)

Section CacheProperties.
Import gostrings cache.
Context {V : Type}.

Lemma Get_Some (c : Cache V) (key : string) (now : Z) (v : V) :
  (Get c key now).1 = Some v
  ↔ ∃ e, items c !! key = Some e ∧ After now (expiresAt e) = false ∧ value e = v.
Proof.
  unfold Get. destruct (items c !! key) as [e|] eqn:He.
  - destruct (After now (expiresAt e)) eqn:Ha; simpl.
    + split; [done|]. intros (e' & ? & ? & ?). congruence.
    + split.
      * intros [= <-]. eauto.
      * intros (e' & [= <-] & _ & <-). done.
  - simpl. split; [done|]. intros (? & ? & _). done.
Qed.

Lemma Get_absent (c : Cache V) (key : string) (now : Z) :
  items c !! key = None → (Get c key now).1 = None.
Proof. intros Hk. unfold Get. by rewrite Hk. Qed.

Lemma Get_items (c : Cache V) (key : string) (now : Z) :
  items (Get c key now).2 = items c.
Proof.
  unfold Get. destruct (items c !! key) as [e|]; [|done].
  by destruct (After now (expiresAt e)).
Qed.

Lemma InvalidateMoods_lookup (c : Cache V) (k : string) :
  items (InvalidateMoods c) !! k
  = if decide (k = KeyMoodsList) then None
    else if HasPrefix k "playlist:" then None else items c !! k.
Proof.
  unfold InvalidateMoods. simpl.
  destruct (decide (k = KeyMoodsList)) as [->|Hne].
  - apply map_lookup_filter_None. left. apply lookup_delete_eq.
  - destruct (HasPrefix k "playlist:") eqn:Hp.
    + apply map_lookup_filter_None. right. intros e _. simpl. by rewrite Hp.
    + destruct (items c !! k) as [e|] eqn:He.
      * apply map_lookup_filter_Some. split; [|done].
        by rewrite lookup_delete_ne.
      * apply map_lookup_filter_None. left. by rewrite lookup_delete_ne.
Qed.

Lemma cacheKey_HasPrefix (mood : string) (instrumentalOnly : bool) :
  HasPrefix (api.cacheKey mood instrumentalOnly) "playlist:" = true.
Proof.
  unfold api.cacheKey, PlaylistKey, HasPrefix.
  destruct instrumentalOnly; simpl; by destruct mood.
Qed.

(** C6 (cache correctness): after [InvalidateMoods], a [Get] of the
    mood-list key misses, a [Get] of any key that starts with "playlist:"
    misses (the playlist keys of every mood, instrumental-only variants
    included), and a [Get] of any other key misses or hits exactly as it
    did before: an unrelated key that was [Set] before the invalidation
    and has not expired is a hit with its stored value. *)
Theorem InvalidateMoods_correct (c : Cache V) (now : Z) :
  (Get (InvalidateMoods c) KeyMoodsList now).1 = None
  ∧ (∀ k, HasPrefix k "playlist:" = true → (Get (InvalidateMoods c) k now).1 = None)
  ∧ (∀ mood instrumentalOnly,
       (Get (InvalidateMoods c) (api.cacheKey mood instrumentalOnly) now).1 = None)
  ∧ (∀ k, k ≠ KeyMoodsList → HasPrefix k "playlist:" = false →
       (Get (InvalidateMoods c) k now).1 = (Get c k now).1)
  ∧ (∀ k v t, k ≠ KeyMoodsList → HasPrefix k "playlist:" = false →
       (now ≤ t + DefaultTTL)%Z →
       (Get (InvalidateMoods (Set_ c k v t)) k now).1 = Some v).
Proof.
  assert (∀ (c0 : Cache V) k, HasPrefix k "playlist:" = true →
            (Get (InvalidateMoods c0) k now).1 = None) as Hpre.
  { intros c0 k Hk. apply Get_absent. rewrite InvalidateMoods_lookup.
    case_decide; [done|]. by rewrite Hk. }
  assert (∀ (c0 : Cache V) k, k ≠ KeyMoodsList → HasPrefix k "playlist:" = false →
            (Get (InvalidateMoods c0) k now).1 = (Get c0 k now).1) as Hother.
  { intros c0 k Hk Hp. unfold Get. rewrite InvalidateMoods_lookup.
    rewrite decide_False by done. rewrite Hp.
    destruct (items c0 !! k) as [e|]; [|done].
    by destruct (After now (expiresAt e)). }
  split.
  { apply Get_absent. rewrite InvalidateMoods_lookup. by rewrite decide_True. }
  split; [by apply Hpre|].
  split; [intros; apply Hpre, cacheKey_HasPrefix|].
  split; [by apply Hother|].
  intros k v t Hk Hp Ht. rewrite Hother by done.
  apply Get_Some. exists (MkEntry v (t + DefaultTTL)). simpl.
  split; [apply lookup_insert_eq|]. split; [|done].
  unfold After. apply bool_decide_eq_false. lia.
Qed.

End CacheProperties.

(** ** The play report handler *)

Section RecordPlayProperties.
Import inventory api.
Context {G : Type} `{radio.RandSource G}.

Lemma validEventTypes_spec (e : string) :
  mapBool validEventTypes e = true
  ↔ e = EventPlay ∨ e = EventSkip ∨ e = EventComplete.
Proof.
  unfold mapBool, validEventTypes. simpl.
  destruct (decide (e = EventPlay)) as [->|H1]; [rewrite lookup_insert_eq; simpl; naive_solver|].
  rewrite lookup_insert_ne by done.
  destruct (decide (e = EventSkip)) as [->|H2]; [rewrite lookup_insert_eq; simpl; naive_solver|].
  rewrite lookup_insert_ne by done.
  destruct (decide (e = EventComplete)) as [->|H3]; [rewrite lookup_insert_eq; simpl; naive_solver|].
  rewrite lookup_insert_ne by done. rewrite lookup_empty. simpl.
  split; [done|]. intros [?|[?|?]]; done.
Qed.

Lemma validEventTypes_check (e : string) :
  mapBool validEventTypes e = true → eventTypeCheck e = true.
Proof.
  intros Hv. apply validEventTypes_spec in Hv as [ -> | [ -> | -> ] ]; reflexivity.
Qed.

(** What a committed play report leaves in the database. *)
Lemma recordPlayTx_Ok (r r' : Repository) (evt : ListenEvent) (trackID now : Z) :
  recordPlayTx r evt trackID now = Ok r' →
  faults r' = faults r
  ∧ tracks (db r') = tracks (db r)
  ∧ play_stats (db r')
    = (if bool_decide (EventType evt = EventSkip) then play_stats (db r)
       else match findByID (tracks (db r)) trackID with
            | Some row =>
                <[file_path row := upsertPlay now (play_stats (db r) !! file_path row)]>
                  (play_stats (db r))
            | None => play_stats (db r)
            end)
  ∧ listen_events (db r')
    = listen_events (db r)
      ++ (if bool_decide (EvMood evt = "") then [] else [listenRow evt now]).
Proof.
  unfold recordPlayTx, BeginTx, UpdatePlayStatsTx, RecordListenEventTx, Commit, rbind.
  intros Hok.
  repeat (case_match; simplify_eq/=); rewrite ?app_nil_r; done.
Qed.

(** When a play report commits. *)
Lemma recordPlayTx_is_Ok (r : Repository) (evt : ListenEvent) (trackID now : Z) :
  beginTxErr (faults r) = false →
  recordListenEventErr (faults r) = false →
  commitErr (faults r) = false →
  eventTypeCheck (EventType evt) = true →
  (EventType evt = EventSkip
   ∨ (updatePlayStatsErr (faults r) = false
      ∧ is_Some (findByID (tracks (db r)) trackID))) →
  ∃ r', recordPlayTx r evt trackID now = Ok r'.
Proof.
  unfold recordPlayTx, BeginTx, UpdatePlayStatsTx, RecordListenEventTx, Commit, rbind.
  intros -> -> -> Hev Htrack. simpl.
  destruct Htrack as [->|[-> [row ->]]]; simpl;
    repeat case_match; simplify_eq/=; eauto;
    rewrite Hev in *; done.
Qed.

(** The response and the state after [recordPlay], by cases. *)
Lemma recordPlay_cases (h : Handler G) (body : RequestBody) (trackID now : Z) :
  let evt := reportedEvent (repo h) body trackID in
  (mapBool validEventTypes (EventType evt) = false
   ∧ recordPlay h body trackID now
     = (httpError "invalid event type" StatusBadRequest, h))
  ∨ (mapBool validEventTypes (EventType evt) = true
     ∧ (∃ e, recordPlayTx (repo h) evt trackID now = Err e)
     ∧ recordPlay h body trackID now
       = (httpError "failed to record play" StatusInternalServerError, h))
  ∨ (mapBool validEventTypes (EventType evt) = true
     ∧ ∃ repo' h',
         recordPlayTx (repo h) evt trackID now = Ok repo'
         ∧ recordPlay h body trackID now = (MkResponse StatusOK None (Text "ok"), h')
         ∧ repo h' = repo'
         ∧ cache h' = cache h
         ∧ (EventType evt = EventSkip → radio h' = radio h ∧ metrics h' = metrics h)
         ∧ (EventType evt ≠ EventSkip → metrics h' = metrics.RecordPlay (metrics h))).
Proof.
  intros evt.
  assert (EventType evt = EventType (decodeEvent body trackID)) as Hty.
  { unfold evt, reportedEvent, fillMood. repeat case_match; done. }
  unfold recordPlay. rewrite <- Hty.
  destruct (mapBool validEventTypes (EventType evt)) eqn:Hvalid; simpl; [|by left].
  right. fold (reportedEvent (repo h) body trackID). fold evt.
  destruct (recordPlayTx (repo h) evt trackID now) as [repo'|e] eqn:Htx.
  - right. split; [done|]. exists repo'.
    destruct (bool_decide (EventType evt = EventSkip)) eqn:Hskip; simpl.
    + apply bool_decide_eq_true in Hskip. eexists. repeat split; try done.
    + apply bool_decide_eq_false in Hskip. eexists. repeat split; try done.
  - left. eauto.
Qed.

Lemma reportedEvent_type (r : Repository) (body : RequestBody) (trackID : Z) :
  EventType (reportedEvent r body trackID) = EventType (decodeEvent body trackID).
Proof. unfold reportedEvent, fillMood. repeat case_match; done. Qed.

Lemma reportedEvent_seconds (r : Repository) (body : RequestBody) (trackID : Z) :
  ListenSeconds (reportedEvent r body trackID)
  = match body with Decoded e => ListenSeconds e | _ => 0%Z end.
Proof.
  unfold reportedEvent, fillMood, decodeEvent.
  destruct body; repeat case_match; done.
Qed.

(** C3 (transactional atomicity): the durable writes of a play report are
    those of one transaction.  If [RecordListenEventTx] fails after
    [UpdatePlayStatsTx] succeeded, if [UpdatePlayStatsTx] fails, or if any
    step of the transaction fails, the request fails with status 500 and
    the whole state, the database included, is the state before the
    request; whenever the response is not 200 nothing has changed; and a
    200 response leaves exactly the committed transaction in the database. *)
Theorem recordPlay_atomic (h : Handler G) (body : RequestBody) (trackID now : Z) :
  let evt := reportedEvent (repo h) body trackID in
  let failed := (httpError "failed to record play" StatusInternalServerError, h) in
  (∀ tx tx1 e,
     mapBool validEventTypes (EventType evt) = true →
     EventType evt ≠ EventSkip → EvMood evt ≠ "" →
     BeginTx (repo h) = Ok tx →
     UpdatePlayStatsTx (repo h) tx trackID now = Ok tx1 →
     RecordListenEventTx (repo h) tx1 evt now = Err e →
     recordPlay h body trackID now = failed)
  ∧ (∀ tx e,
       mapBool validEventTypes (EventType evt) = true →
       EventType evt ≠ EventSkip →
       BeginTx (repo h) = Ok tx →
       UpdatePlayStatsTx (repo h) tx trackID now = Err e →
       recordPlay h body trackID now = failed)
  ∧ (∀ e,
       mapBool validEventTypes (EventType evt) = true →
       recordPlayTx (repo h) evt trackID now = Err e →
       recordPlay h body trackID now = failed)
  ∧ (StatusCode (recordPlay h body trackID now).1 ≠ StatusOK →
     (recordPlay h body trackID now).2 = h)
  ∧ (StatusCode (recordPlay h body trackID now).1 = StatusOK →
     recordPlayTx (repo h) evt trackID now = Ok (repo (recordPlay h body trackID now).2)).
Proof.
  intros evt failed.
  assert (∀ e, mapBool validEventTypes (EventType evt) = true →
               recordPlayTx (repo h) evt trackID now = Err e →
               recordPlay h body trackID now = failed) as Herr.
  { intros e Hvalid Htx.
    destruct (recordPlay_cases h body trackID now)
      as [[Hinv _]|[(_ & _ & Hrp)|(_ & repo' & h' & Hok & _)]].
    - fold evt in Hinv. congruence.
    - exact Hrp.
    - fold evt in Hok. congruence. }
  split.
  { intros tx tx1 e Hvalid Hskip Hmood Hb Hu Hr. apply (Herr e Hvalid).
    unfold recordPlayTx, rbind. rewrite Hb.
    rewrite bool_decide_eq_false_2 by done. simpl. rewrite Hu.
    rewrite bool_decide_eq_false_2 by done. simpl. by rewrite Hr. }
  split.
  { intros tx e Hvalid Hskip Hb Hu. apply (Herr e Hvalid).
    unfold recordPlayTx, rbind. rewrite Hb.
    rewrite bool_decide_eq_false_2 by done. simpl. by rewrite Hu. }
  split; [exact Herr|].
  destruct (recordPlay_cases h body trackID now)
    as [[_ ->]|[(_ & _ & ->)|(_ & repo' & h' & Hok & -> & <- & _)]]; simpl.
  - split; [done|]. intros [=].
  - split; [done|]. intros [=].
  - split; [done|]. intros _. exact Hok.
Qed.

(** C4 (skip exemption): a "skip" report never changes the play
    statistics, the registry of recency windows or the plays counter.  The
    mood of the event is the one the caller supplied or, failing that, the
    one of the track in the catalog; when it is known, a successful request
    appends exactly one [listen_events] row (the "skip" row of the event),
    and the request succeeds whenever the storage calls do. *)
Theorem recordPlay_skip (h : Handler G) (body : RequestBody) (trackID now : Z) :
  EventType (decodeEvent body trackID) = EventSkip →
  let evt := reportedEvent (repo h) body trackID in
  let resp := (recordPlay h body trackID now).1 in
  let h' := (recordPlay h body trackID now).2 in
  play_stats (db (repo h')) = play_stats (db (repo h))
  ∧ radio h' = radio h
  ∧ metrics h' = metrics h
  ∧ EvMood evt
    = (if decide (EvMood (decodeEvent body trackID) = "")
       then from_option Mood "" (lookupTrack (repo h) trackID)
       else EvMood (decodeEvent body trackID))
  ∧ (EvMood evt ≠ "" → StatusCode resp = StatusOK →
     listen_events (db (repo h')) = listen_events (db (repo h)) ++ [listenRow evt now]
     ∧ le_event_type (listenRow evt now) = EventSkip)
  ∧ (EvMood evt ≠ "" →
     beginTxErr (faults (repo h)) = false →
     recordListenEventErr (faults (repo h)) = false →
     commitErr (faults (repo h)) = false →
     StatusCode resp = StatusOK)
  ∧ (EvMood evt = "" →
     listen_events (db (repo h')) = listen_events (db (repo h))).
Proof.
  intros Hskip evt resp h'.
  assert (EventType evt = EventSkip) as Hty.
  { unfold evt. by rewrite reportedEvent_type. }
  assert (EvMood evt
          = (if decide (EvMood (decodeEvent body trackID) = "")
             then from_option Mood "" (lookupTrack (repo h) trackID)
             else EvMood (decodeEvent body trackID))) as Hmood.
  { unfold evt, reportedEvent, fillMood.
    destruct (lookupTrack (repo h) trackID) as [t|]; simpl;
      repeat case_decide; done. }
  assert (mapBool validEventTypes (EventType evt) = true) as Hvalid.
  { apply validEventTypes_spec. auto. }
  unfold resp, h'.
  destruct (recordPlay_cases h body trackID now)
    as [[Hinv _]|[(_ & [e Htx] & ->)|(_ & repo' & h1 & Hok & -> & <- & _ & Hrm & _)]];
    simpl.
  - fold evt in Hinv. congruence.
  - split_and!; try done.
    intros Hm Hb Hr Hc. exfalso.
    destruct (recordPlayTx_is_Ok (repo h) evt trackID now) as [r' Hr'];
      try done; [by apply validEventTypes_check|by left|].
    fold evt in Htx. congruence.
  - fold evt in Hok. destruct (Hrm Hty) as [-> ->].
    apply recordPlayTx_Ok in Hok as (_ & _ & Hps & Hle).
    rewrite Hty in Hps. rewrite bool_decide_eq_true_2 in Hps by done.
    split_and!; try done.
    + intros Hm _. rewrite Hle. rewrite bool_decide_eq_false_2 by done.
      split; [done|]. simpl. exact Hty.
    + intros Hm. rewrite Hle. rewrite bool_decide_eq_true_2 by done.
      by rewrite app_nil_r.
Qed.

(** C9, as the code has it: the handler stores the seconds-listened value
    of the report as it was supplied, zero when the body is absent or
    malformed; it applies no clamp.  A successful report with a known mood
    appends one row whose [listen_seconds] is that value, so the stored
    value is non-negative exactly when the supplied one is. *)
Theorem recordPlay_listen_seconds_verbatim (h : Handler G) (body : RequestBody)
    (trackID now : Z) :
  let evt := reportedEvent (repo h) body trackID in
  let supplied := match body with Decoded e => ListenSeconds e | _ => 0%Z end in
  StatusCode (recordPlay h body trackID now).1 = StatusOK →
  EvMood evt ≠ "" →
  ∃ row,
    listen_events (db (repo (recordPlay h body trackID now).2))
    = listen_events (db (repo h)) ++ [row]
    ∧ le_listen_seconds row = supplied
    ∧ ((0 ≤ le_listen_seconds row)%Z ↔ (0 ≤ supplied)%Z).
Proof.
  intros evt supplied Hok Hmood.
  destruct (recordPlay_cases h body trackID now)
    as [[_ Hrp]|[(_ & _ & Hrp)|(_ & repo' & h1 & Htx & Hrp & <- & _)]];
    rewrite Hrp in *; simpl in *; try done.
  fold evt in Htx. apply recordPlayTx_Ok in Htx as (_ & _ & _ & Hle).
  rewrite bool_decide_eq_false_2 in Hle by done.
  exists (listenRow evt now). split; [done|].
  assert (le_listen_seconds (listenRow evt now) = supplied) as ->; [|done].
  simpl. apply reportedEvent_seconds.
Qed.

End RecordPlayProperties.

(** ** The playlist handler *)

Section PlaylistProperties.
Import inventory gostrings api.
Context {G : Type} `{radio.RandSource G}.

Lemma GetPlaylist_total (r : Repository) (rad : radio.Radio G) (instrumentalOnly : bool) :
  ∃ res rad', radio.GetPlaylist r rad instrumentalOnly = Some (res, rad')
              ∧ radio.mood rad' = radio.mood rad.
Proof.
  destruct (GetByMood r (radio.mood rad) instrumentalOnly) as [ts|e] eqn:Hq.
  - destruct (GetPlaylist_shuffled r rad instrumentalOnly ts Hq)
      as (sh & rad' & -> & _ & _ & Hm & _). eauto.
  - unfold radio.GetPlaylist. rewrite Hq. eauto.
Qed.

Lemma GetRadio_mood (m : radio.Manager G) (seed : Z) (md : string) :
  wfManager m →
  radio.mood (radio.GetRadio m seed md).1 = md
  ∧ wfManager (radio.GetRadio m seed md).2.
Proof.
  intros Hwf. unfold radio.GetRadio.
  destruct (m !! md) as [r|] eqn:Hr; simpl.
  - split; [by apply Hwf|done].
  - split; [done|]. intros md' r'.
    destruct (decide (md = md')) as [<-|Hne].
    + rewrite lookup_insert_eq. by intros [= <-].
    + rewrite lookup_insert_ne by done. apply Hwf.
Qed.

Lemma ManagerGetPlaylist_total (r : Repository) (m : radio.Manager G) (seed : Z)
    (md : string) (instrumentalOnly : bool) :
  ∃ res m', radio.ManagerGetPlaylist r m seed md instrumentalOnly = Some (res, m').
Proof.
  unfold radio.ManagerGetPlaylist.
  destruct (radio.GetRadio m seed md) as [rad m1].
  destruct (GetPlaylist_total r rad instrumentalOnly) as (res & rad' & -> & _).
  simpl. eauto.
Qed.

(** The registry hands the store's answer for its mood to the engine: no
    tracks, no shuffle. *)
Lemma ManagerGetPlaylist_empty (r : Repository) (m : radio.Manager G) (seed : Z)
    (md : string) (instrumentalOnly : bool) :
  wfManager m →
  GetByMood r md instrumentalOnly = Ok [] →
  ∃ m', radio.ManagerGetPlaylist r m seed md instrumentalOnly = Some (Ok [], m')
        ∧ wfManager m'.
Proof.
  intros Hwf Hq. unfold radio.ManagerGetPlaylist.
  destruct (GetRadio_mood m seed md Hwf) as [Hmood Hwf1].
  destruct (radio.GetRadio m seed md) as [rad m1]. simpl in *.
  unfold radio.GetPlaylist. rewrite Hmood, Hq. simpl.
  eexists. split; [done|].
  intros md' r'. destruct (decide (md = md')) as [<-|Hne].
  - rewrite lookup_insert_eq. by intros [= <-].
  - rewrite lookup_insert_ne by done. apply Hwf1.
Qed.

(** The response and the state after [getPlaylist], by cases. *)
Lemma getPlaylist_cases (h : Handler G) (mood : string) (instrumentalOnly : bool)
    (now : Z) :
  let key := cacheKey mood instrumentalOnly in
  let c1 := (cache.Get (cache h) key now).2 in
  (∃ v, (cache.Get (cache h) key now).1 = Some v
        ∧ getPlaylist h mood instrumentalOnly now
          = Some (MkResponse StatusOK (Some "HIT") (JSON v),
                  MkHandler (repo h) (radio h) (audioResolver h) c1 (metrics h)))
  ∨ ((cache.Get (cache h) key now).1 = None
     ∧ ∃ e mgr,
         radio.ManagerGetPlaylist (repo h) (radio h) now mood instrumentalOnly
         = Some (Err e, mgr)
         ∧ getPlaylist h mood instrumentalOnly now
           = Some (httpError "Internal error" StatusInternalServerError,
                   MkHandler (repo h) mgr (audioResolver h) c1 (metrics h)))
  ∨ ((cache.Get (cache h) key now).1 = None
     ∧ ∃ ts mgr slim,
         radio.ManagerGetPlaylist (repo h) (radio h) now mood instrumentalOnly
         = Some (Ok ts, mgr)
         ∧ length slim = length ts
         ∧ getPlaylist h mood instrumentalOnly now
           = Some (MkResponse StatusOK (Some "MISS") (JSON (CachedPlaylist slim)),
                   MkHandler (repo h) mgr (audioResolver h)
                     (if decide (0 < length slim)
                      then cache.Set_ c1 key (CachedPlaylist slim) now else c1)
                     (metrics h))).
Proof.
  intros key c1. unfold getPlaylist. fold key. unfold c1.
  destruct (cache.Get (cache h) key now) as [[v|] c] eqn:Hget; simpl.
  - left. eauto.
  - right.
    destruct (ManagerGetPlaylist_total (repo h) (radio h) now mood instrumentalOnly)
      as ([ts|e] & mgr & ->); simpl.
    + right. split; [done|]. eexists ts, mgr, _. split; [done|]. split; [|done].
      unfold toPlaylistTracks. by rewrite !length_fmap.
    + left. eauto.
Qed.

(** C10 (empty playlists are not cached): [getPlaylist] always answers.
    When the answer is an empty track list the item map of the cache is
    the one before the request (the lookup only bumped the miss counter),
    so a later lookup of the same key still misses and the playlist is
    recomputed; the only entry a request can create or replace is the one
    under its own key, and then it holds the non-empty playlist that was
    sent. *)
Theorem getPlaylist_empty_not_cached (h : Handler G) (mood : string)
    (instrumentalOnly : bool) (now : Z) :
  let key := cacheKey mood instrumentalOnly in
  ∃ resp h',
    getPlaylist h mood instrumentalOnly now = Some (resp, h')
    ∧ (Body resp = JSON (CachedPlaylist []) →
       cache.items (cache h') = cache.items (cache h)
       ∧ (XCache resp = Some "MISS" →
          cache.hits (cache h') = cache.hits (cache h)
          ∧ cache.misses (cache h') = (cache.misses (cache h) + 1)%Z
          ∧ ∀ now', (now ≤ now')%Z → (cache.Get (cache h') key now').1 = None))
    ∧ (∀ k, cache.items (cache h') !! k ≠ cache.items (cache h) !! k →
         k = key
         ∧ ∃ slim, slim ≠ []
             ∧ Body resp = JSON (CachedPlaylist slim)
             ∧ cache.items (cache h') !! k
               = Some (cache.MkEntry (CachedPlaylist slim) (now + cache.DefaultTTL)%Z)).
Proof.
  intros key.
  assert (∀ now', (now ≤ now')%Z → (cache.Get (cache h) key now).1 = None →
            (cache.Get (cache.Get (cache h) key now).2 key now').1 = None) as Hlater.
  { intros now' Hle. unfold cache.Get.
    destruct (cache.items (cache h) !! key) as [e|] eqn:He; simpl.
    - destruct (cache.After now (cache.expiresAt e)) eqn:Ha; simpl; [|done].
      intros _. rewrite He.
      assert (cache.After now' (cache.expiresAt e) = true) as ->; [|done].
      unfold cache.After in *. apply bool_decide_eq_true in Ha.
      apply bool_decide_eq_true. lia.
    - intros _. by rewrite He. }
  assert ((cache.Get (cache h) key now).1 = None →
          cache.hits (cache.Get (cache h) key now).2 = cache.hits (cache h)
          ∧ cache.misses (cache.Get (cache h) key now).2
            = (cache.misses (cache h) + 1)%Z) as Hcount.
  { unfold cache.Get. destruct (cache.items (cache h) !! key) as [e|]; [|done].
    by destruct (cache.After now (cache.expiresAt e)). }
  destruct (getPlaylist_cases h mood instrumentalOnly now)
    as [(v & Hhit & ->)|[(Hmiss & e & mgr & _ & ->)
                        |(Hmiss & ts & mgr & slim & _ & _ & ->)]];
    fold key; eexists _, _; (split; [reflexivity|]); simpl.
  - split.
    + intros _. split; [apply Get_items|]. intros [=].
    + intros k. by rewrite Get_items.
  - split; [intros [=]|]. intros k. by rewrite Get_items.
  - destruct slim as [|pt slim]; simpl.
    + split.
      * intros _. split; [apply Get_items|]. intros _.
        destruct (Hcount Hmiss) as [-> ->]. split_and!; try done.
        intros now' Hle. by apply Hlater.
      * intros k. by rewrite Get_items.
    + split; [intros [=]|].
      intros k. rewrite Get_items.
      destruct (decide (key = k)) as [<-|Hne].
      * intros _. split; [done|]. exists (pt :: slim).
        split; [done|]. split; [done|]. apply lookup_insert_eq.
      * rewrite lookup_insert_ne by done. done.
Qed.

Lemma ManagerGetPlaylist_wf (r : Repository) (m m' : radio.Manager G) (seed : Z)
    (md : string) (instrumentalOnly : bool) (res : Result (list Track)) :
  wfManager m →
  radio.ManagerGetPlaylist r m seed md instrumentalOnly = Some (res, m') →
  wfManager m'.
Proof.
  intros Hwf. unfold radio.ManagerGetPlaylist.
  destruct (GetRadio_mood m seed md Hwf) as [Hmood Hwf1].
  destruct (radio.GetRadio m seed md) as [rad m1]. simpl in *.
  destruct (GetPlaylist_total r rad instrumentalOnly) as (res' & rad' & -> & Hm).
  simpl. intros [= _ <-]. intros md' r'.
  destruct (decide (md = md')) as [<-|Hne].
  - rewrite lookup_insert_eq. intros [= <-]. congruence.
  - rewrite lookup_insert_ne by done. apply Hwf1.
Qed.

Lemma ManagerRecordPlay_wf (m : radio.Manager G) (seed : Z) (md : string)
    (trackID : Z) :
  wfManager m → wfManager (radio.ManagerRecordPlay m seed md trackID).
Proof.
  intros Hwf. unfold radio.ManagerRecordPlay.
  destruct (GetRadio_mood m seed md Hwf) as [Hmood Hwf1].
  destruct (radio.GetRadio m seed md) as [rad m1]. simpl in *.
  intros md' r'. destruct (decide (md = md')) as [<-|Hne].
  - rewrite lookup_insert_eq. intros [= <-].
    unfold radio.RecordPlay. by destruct (radio.alreadyRecent _ _).
  - rewrite lookup_insert_ne by done. apply Hwf1.
Qed.

Lemma wfManager_empty : wfManager (G := G) radio.NewManager.
Proof. intros md r. unfold radio.NewManager. by rewrite lookup_empty. Qed.

(** C7, as the code has it: for a request path [/api/moods/{mood}/playlist],
    a mood outside the four known names is rejected with 404 "Unknown mood"
    and nothing changes; for a known mood for which the store returns no
    eligible track, a request that misses the cache is answered 200 with
    the empty list; and the engine itself returns the empty list, without
    error, for any mood with no eligible track. *)
Theorem handleMoods_unknown_or_empty (h : Handler G) (urlPath instrumental : string)
    (now : Z) (mood : string) (rest : list string) :
  Split (TrimPrefix urlPath "/api/moods/") = mood :: "playlist" :: rest →
  let instrumentalOnly := bool_decide (instrumental = "true") in
  (mapBool validMoods mood = false →
   handleMoods h urlPath instrumental now
   = Some (httpError "Unknown mood" StatusNotFound, h))
  ∧ (mapBool validMoods mood = true →
     wfManager (radio h) →
     (cache.Get (cache h) (cacheKey mood instrumentalOnly) now).1 = None →
     GetByMood (repo h) mood instrumentalOnly = Ok [] →
     ∃ h', handleMoods h urlPath instrumental now
           = Some (MkResponse StatusOK (Some "MISS") (JSON (CachedPlaylist [])), h'))
  ∧ (∀ rad : radio.Radio G,
       GetByMood (repo h) (radio.mood rad) instrumentalOnly = Ok [] →
       radio.GetPlaylist (repo h) rad instrumentalOnly = Some (Ok [], rad)).
Proof.
  intros Hparts instrumentalOnly. split_and!.
  - intros Hunknown. unfold handleMoods. rewrite Hparts. simpl.
    by rewrite Hunknown.
  - intros Hknown Hwf Hmiss Hq. unfold handleMoods. rewrite Hparts. simpl.
    rewrite Hknown. simpl. fold instrumentalOnly.
    destruct (ManagerGetPlaylist_empty (repo h) (radio h) now mood instrumentalOnly
                Hwf Hq) as (m' & Hm' & _).
    destruct (getPlaylist_cases h mood instrumentalOnly now)
      as [(v & Hhit & _)|[(_ & e & mgr & Hmgr & _)
                         |(_ & ts & mgr & slim & Hmgr & Hlen & ->)]].
    + congruence.
    + congruence.
    + assert (ts = []) as -> by congruence.
      destruct slim; [|done]. simpl. eauto.
  - intros rad Hq. unfold radio.GetPlaylist. by rewrite Hq.
Qed.

End PlaylistProperties.

(** ** The handlers on the sample catalog *)

Section HandlerExamples.
Import inventory gostrings api sample.

(** [TestRecordPlay_SkipEvent_NoPlayStatsUpdate]: a skip of track 1, whose
    mood comes from the catalog. *)
Lemma recordPlay_skip_witness :
  let h' := (recordPlay sampleHandler skipBody 1 77).2 in
  play_stats (db (repo h')) = play_stats sampleDB
  ∧ radio h' = radio.NewManager
  ∧ metrics h' = metrics.MkMetrics 0
  ∧ listen_events (db (repo h'))
    = [MkListenRow 1 "focus" "skip" 45 (Some 2%Z) 77].
Proof.
  pose proof (recordPlay_skip sampleHandler skipBody 1 77 eq_refl) as Hskip.
  cbv zeta in Hskip.
  destruct Hskip as (Hps & Hr & Hm & _ & Hle & Hok & _).
  cbv zeta. split_and!; [exact Hps|exact Hr|exact Hm|].
  apply Hle; [discriminate|].
  apply Hok; [discriminate|reflexivity..].
Defined.

(** The insert into [listen_events] fails after the play statistics were
    updated in the transaction: status 500 and nothing changed. *)
Lemma recordPlay_atomic_witness :
  recordPlay faultyHandler playBody 1 77
  = (httpError "failed to record play" StatusInternalServerError, faultyHandler).
Proof.
  pose proof (recordPlay_atomic faultyHandler playBody 1 77) as Hatomic.
  cbv zeta in Hatomic. destruct Hatomic as (Hlisten & _).
  eapply Hlisten.
  - reflexivity.
  - discriminate.
  - discriminate.
  - reflexivity.
  - vm_compute. reflexivity.
  - reflexivity.
Defined.

(** The same report on the healthy server commits both writes. *)
Example recordPlay_play_sample :
  let h' := (recordPlay sampleHandler playBody 1 77).2 in
  play_stats (db (repo h')) !! "focus/track1.mp3" = Some (MkPlayStat 11 (Some 77%Z))
  ∧ listen_events (db (repo h')) = [MkListenRow 1 "focus" "play" 30 None 77]
  ∧ radio.recentlyPlayed <$> radio h' !! "focus" = Some [1%Z]
  ∧ metrics h' = metrics.MkMetrics 1.
Proof. vm_compute. done. Qed.

(** A report with a negative [listen_seconds] is stored as it came. *)
Lemma recordPlay_negative_seconds_stored :
  StatusCode (recordPlay sampleHandler negativeBody 1 77).1 = StatusOK
  ∧ ∃ row,
      row ∈ listen_events (db (repo (recordPlay sampleHandler negativeBody 1 77).2))
      ∧ (le_listen_seconds row < 0)%Z.
Proof.
  split; [reflexivity|].
  exists (MkListenRow 1 "focus" "play" (-5) None 77). split; [|done].
  vm_compute. left.
Qed.

Lemma recordPlay_listen_seconds_verbatim_witness :
  ∃ row,
    listen_events (db (repo (recordPlay sampleHandler playBody 1 77).2))
    = listen_events (db (repo sampleHandler)) ++ [row]
    ∧ le_listen_seconds row = 30%Z
    ∧ ((0 ≤ le_listen_seconds row)%Z ↔ (0 ≤ 30)%Z).
Proof.
  apply (recordPlay_listen_seconds_verbatim sampleHandler playBody 1 77).
  - reflexivity.
  - discriminate.
Defined.

(** [TestRecordPlay_MalformedBody_StillSucceeds] *)
Example recordPlay_malformed_sample :
  (recordPlay sampleHandler Malformed 1 77).1 = MkResponse StatusOK None (Text "ok")
  ∧ radio.recentlyPlayed
      <$> radio (recordPlay sampleHandler Malformed 1 77).2 !! "focus" = Some [1%Z].
Proof. vm_compute. done. Qed.

(** A well-formed mood name that the catalog does not know is answered
    404, not with an empty list. *)
Lemma handleMoods_unknown_mood_rejected :
  GetByMood sampleRepo "ambient" false = Ok []
  ∧ ∃ resp h',
      handleMoods sampleHandler "/api/moods/ambient/playlist" "" 0 = Some (resp, h')
      ∧ StatusCode resp = StatusNotFound
      ∧ Body resp = Text "Unknown mood"
      ∧ Body resp ≠ JSON (CachedPlaylist []).
Proof.
  split; [reflexivity|].
  eexists _, _. split; [vm_compute; reflexivity|]. done.
Qed.

Lemma getPlaylist_empty_not_cached_witness :
  ∃ resp h',
    getPlaylist sampleHandler "energize" false 0 = Some (resp, h')
    ∧ Body resp = JSON (CachedPlaylist [])
    ∧ cache.items (cache h') = cache.items (cache sampleHandler)
    ∧ ∀ now', (0 ≤ now')%Z →
        (cache.Get (cache h') (cacheKey "energize" false) now').1 = None.
Proof.
  pose proof (getPlaylist_empty_not_cached sampleHandler "energize" false 0) as Hg.
  cbv zeta in Hg. destruct Hg as (resp & h' & Hget & Hempty & _).
  assert (Body resp = JSON (CachedPlaylist []) ∧ XCache resp = Some "MISS")
    as [Hbody Hmiss].
  { vm_compute in Hget. by injection Hget as <- _. }
  destruct (Hempty Hbody) as [Hitems Hlater].
  destruct (Hlater Hmiss) as (_ & _ & Hnext).
  exists resp, h'. split_and!; [exact Hget|exact Hbody|exact Hitems|exact Hnext].
Defined.

(** The scenario of the specification: window [1; 2] of size 2, the play
    of track 3 evicts track 1. *)
Example RecordPlay_scenario :
  radio.recentlyPlayed (radio.RecordPlay (radio.MkRadio "focus" [1; 2]%Z 2 0%Z) 3)
  = [2; 3]%Z.
Proof. reflexivity. Qed.

(** "energize" is a known mood without tracks in the sample catalog. *)
Lemma handleMoods_unknown_or_empty_witness :
  ∃ h', handleMoods sampleHandler "/api/moods/energize/playlist" "" 0
        = Some (MkResponse StatusOK (Some "MISS") (JSON (CachedPlaylist [])), h').
Proof.
  pose proof (handleMoods_unknown_or_empty sampleHandler
                "/api/moods/energize/playlist" "" 0 "energize" [] eq_refl) as Hm.
  cbv zeta in Hm. destruct Hm as (_ & Hempty & _).
  apply Hempty.
  - reflexivity.
  - apply wfManager_empty.
  - reflexivity.
  - reflexivity.
Defined.

(** The empty answer left the cache without entries, the next one misses
    again; a non-empty playlist is stored. *)
Example getPlaylist_sample :
  (λ p, map_to_list (cache.items (cache p.2)))
    <$> getPlaylist sampleHandler "energize" false 0 = Some []
  ∧ (λ p, fst <$> map_to_list (cache.items (cache p.2)))
      <$> getPlaylist sampleHandler "calm" true 0 = Some ["playlist:calm:instrumental"].
Proof. vm_compute. done. Qed.

(** An unrelated key survives [InvalidateMoods], the playlist keys do not. *)
Lemma InvalidateMoods_correct_witness :
  let c := cache.Set_ (cache.Set_ cache.New "playlist:calm" (CachedPlaylist []) 0)
                      "stats:daily" (CachedMoods []) 0 in
  (cache.Get (cache.InvalidateMoods c) "stats:daily" 5).1 = Some (CachedMoods [])
  ∧ (cache.Get (cache.InvalidateMoods c) "playlist:calm" 5).1 = None.
Proof.
  cbv zeta.
  destruct (InvalidateMoods_correct
              (cache.Set_ cache.New "playlist:calm" (CachedPlaylist []) 0) 5)
    as (_ & _ & _ & _ & Hkeep).
  split.
  - apply Hkeep; [discriminate|reflexivity|]. vm_compute. discriminate.
  - destruct (InvalidateMoods_correct
                (cache.Set_ (cache.Set_ cache.New "playlist:calm" (CachedPlaylist []) 0)
                            "stats:daily" (CachedMoods []) 0) 5)
      as (_ & Hpre & _).
    apply Hpre. reflexivity.
Defined.

End HandlerExamples.

(** * Further properties *)

(** ** The response cache: [Set], [Get], [evictExpired] *)

Section CacheStore.
Import gostrings cache.
Context {V : Type}.

Lemma Get_value (c : Cache V) (key : string) (now : Z) :
  (Get c key now).1
  = e ← items c !! key; if After now (expiresAt e) then None else Some (value e).
Proof.
  unfold Get. destruct (items c !! key) as [e|]; simpl; [|done].
  by destruct (After now (expiresAt e)).
Qed.

(** X1 ([Set] then [Get]): a value stored at time [t] is returned by [Get]
    at every time up to and including [t + DefaultTTL] (five minutes), and
    is a miss at every later time. *)
Theorem Set_Get_roundtrip (c : Cache V) (key : string) (v : V) (t now : Z) :
  (Get (Set_ c key v t) key now).1
  = if bool_decide (now ≤ t + DefaultTTL)%Z then Some v else None.
Proof.
  rewrite Get_value. unfold Set_. simpl. rewrite lookup_insert_eq. simpl.
  unfold After. repeat case_bool_decide; try done; lia.
Qed.

(** X2 ([Set] touches one key): storing under [key] does not change what
    [Get] returns for any other key, and a second [Set] under the same key
    replaces the first, value and expiry. *)
Theorem Set_other_keys (c : Cache V) (key : string) (v : V) (t : Z) :
  (∀ key' now, key' ≠ key → (Get (Set_ c key v t) key' now).1 = (Get c key' now).1)
  ∧ (∀ v0 t0, Set_ (Set_ c key v0 t0) key v t = Set_ c key v t).
Proof.
  split.
  - intros key' now Hne. rewrite !Get_value. unfold Set_. simpl.
    by rewrite lookup_insert_ne.
  - intros v0 t0. unfold Set_. simpl. by rewrite insert_insert_eq.
Qed.

(** X3 (the reaper): after [evictExpired] at time [now] every remaining
    entry is an entry of the cache that is not expired at [now], every such
    entry remains, and no [Get] at [now] or later can tell the difference:
    it returns what it would have returned without the sweep. *)
Theorem evictExpired_unobservable (c : Cache V) (now : Z) :
  (∀ key e, items (evictExpired c now) !! key = Some e
            ↔ items c !! key = Some e ∧ (now ≤ expiresAt e)%Z)
  ∧ (∀ key now', (now ≤ now')%Z →
       (Get (evictExpired c now) key now').1 = (Get c key now').1).
Proof.
  assert (∀ key e, items (evictExpired c now) !! key = Some e
                   ↔ items c !! key = Some e ∧ (now ≤ expiresAt e)%Z) as Hkeep.
  { intros key e. unfold evictExpired. simpl. rewrite map_lookup_filter_Some. simpl.
    unfold After. rewrite bool_decide_eq_false. split; intros [? ?]; split; try done; lia. }
  split; [exact Hkeep|].
  intros key now' Hle. rewrite !Get_value.
  destruct (items (evictExpired c now) !! key) as [e'|] eqn:He'.
  - apply Hkeep in He' as [He' _]. by rewrite He'.
  - destruct (items c !! key) as [e|] eqn:He; [|done]. simpl.
    destruct (decide (now ≤ expiresAt e)%Z) as [Hfresh|Hold].
    + rewrite (proj2 (Hkeep key e) (conj He Hfresh)) in He'. done.
    + unfold After. by rewrite bool_decide_eq_true_2 by lia.
Qed.

(** X4 ([Get] is a read): a lookup never changes the stored entries, an
    expired entry included, and counts itself exactly once, as a hit when
    it returns a value and as a miss otherwise. *)
Theorem Get_accounting (c : Cache V) (key : string) (now : Z) :
  items (Get c key now).2 = items c
  ∧ (is_Some (Get c key now).1 →
     hits (Get c key now).2 = (hits c + 1)%Z ∧ misses (Get c key now).2 = misses c)
  ∧ ((Get c key now).1 = None →
     hits (Get c key now).2 = hits c ∧ misses (Get c key now).2 = (misses c + 1)%Z).
Proof.
  unfold Get. destruct (items c !! key) as [e|]; simpl.
  - destruct (After now (expiresAt e)); simpl; split_and!; try done;
      by intros [? ?].
  - split_and!; try done; by intros [? ?].
Qed.

(** X5 ([InvalidateMoods] only removes): every entry left by
    [InvalidateMoods] was there before with the same value and expiry, the
    counters are untouched, and invalidating twice is invalidating once. *)
Theorem InvalidateMoods_idempotent (c : Cache V) :
  items (InvalidateMoods c) ⊆ items c
  ∧ hits (InvalidateMoods c) = hits c
  ∧ misses (InvalidateMoods c) = misses c
  ∧ InvalidateMoods (InvalidateMoods c) = InvalidateMoods c.
Proof.
  split_and!; try done.
  - unfold InvalidateMoods. simpl.
    etrans; [apply map_filter_subseteq|apply delete_subseteq].
  - assert (∀ c1 c2 : Cache V,
              items c1 = items c2 → hits c1 = hits c2 → misses c1 = misses c2 →
              c1 = c2) as Hext.
    { intros [] []; simpl; congruence. }
    apply Hext; [|done..].
    apply map_eq. intros k. rewrite !InvalidateMoods_lookup.
    by repeat case_match.
Qed.

End CacheStore.

(** ** The playlist engine: window and registry invariants *)

Section RadioEngine.
Import inventory radio.
Context {G : Type} `{RandSource G}.

Lemma Radio_eta (r : Radio G) :
  MkRadio (mood r) (recentlyPlayed r) (maxRecent r) (rng r) = r.
Proof. by destruct r. Qed.

Lemma RecordPlay_frame (r : Radio G) (x : Z) :
  mood (RecordPlay r x) = mood r
  ∧ maxRecent (RecordPlay r x) = maxRecent r
  ∧ rng (RecordPlay r x) = rng r.
Proof. unfold RecordPlay. by destruct (alreadyRecent _ _). Qed.

Lemma RecordPlay_windowOK (r : Radio G) (x : Z) :
  windowOK r → windowOK (RecordPlay r x).
Proof.
  intros [Hnd Hlen]. unfold windowOK.
  rewrite RecordPlay_maxRecent.
  destruct (decide (x ∈ recentlyPlayed r)) as [Hin|Hout].
  { by rewrite RecordPlay_present. }
  rewrite RecordPlay_fresh by done.
  assert (NoDup (recentlyPlayed r ++ [x])) as Hnd'.
  { apply NoDup_app. split_and!; [done| |apply NoDup_singleton].
    intros y Hy ->%list_elem_of_singleton. done. }
  case_decide as Hc.
  - split.
    + eapply sublist_NoDup; [done|apply sublist_drop].
    + rewrite length_drop, length_app in *. simpl in *. lia.
  - split; [done|]. lia.
Qed.

Lemma RecordPlay_elem_of (r : Radio G) (x : Z) :
  (Z.of_nat (length (recentlyPlayed r)) ≤ maxRecent r)%Z →
  (1 ≤ maxRecent r)%Z →
  x ∈ recentlyPlayed (RecordPlay r x).
Proof.
  intros Hlen Hmax. destruct (decide (x ∈ recentlyPlayed r)) as [Hin|Hout].
  { by rewrite RecordPlay_present. }
  rewrite RecordPlay_fresh by done. case_decide as Hc.
  - destruct (recentlyPlayed r) as [|y w] eqn:Hw; simpl in *; [lia|].
    rewrite drop_0. apply elem_of_app. right. by left.
  - apply elem_of_app. right. by left.
Qed.

(** X6 (window invariant): [RecordPlay] keeps the window free of
    duplicates and within [maxRecent] entries, changes nothing else of the
    radio, and, when the window size is at least one, leaves the recorded
    ID in the window. *)
Theorem RecordPlay_window_invariant (r : Radio G) (x : Z) :
  windowOK r →
  windowOK (RecordPlay r x)
  ∧ mood (RecordPlay r x) = mood r
  ∧ maxRecent (RecordPlay r x) = maxRecent r
  ∧ rng (RecordPlay r x) = rng r
  ∧ ((1 ≤ maxRecent r)%Z → x ∈ recentlyPlayed (RecordPlay r x)).
Proof.
  intros Hok. split; [by apply RecordPlay_windowOK|].
  destruct (RecordPlay_frame r x) as (-> & -> & ->). split_and!; try done.
  intros Hmax. apply RecordPlay_elem_of; [apply Hok|done].
Qed.

Lemma GetPlaylist_keeps (repo : Repository) (r r' : Radio G) (instrumentalOnly : bool)
    (res : Result (list Track)) :
  GetPlaylist repo r instrumentalOnly = Some (res, r') →
  recentlyPlayed r' = recentlyPlayed r ∧ mood r' = mood r ∧ maxRecent r' = maxRecent r.
Proof.
  destruct (GetByMood repo (mood r) instrumentalOnly) as [ts|e] eqn:Hq.
  - destruct (GetPlaylist_shuffled repo r instrumentalOnly ts Hq)
      as (sh & r1 & -> & _ & ? & ? & ?). by intros [= _ <-].
  - unfold GetPlaylist. rewrite Hq. by intros [= _ <-].
Qed.

(** X7 ([GetPlaylist] reads the window): a playlist fetch never changes
    the recency window, the mood or the window size of the radio, and a
    store error is handed to the caller as it is, the radio untouched. *)
Theorem GetPlaylist_frame (repo : Repository) (r : Radio G) (instrumentalOnly : bool) :
  (∀ res r', GetPlaylist repo r instrumentalOnly = Some (res, r') →
     recentlyPlayed r' = recentlyPlayed r
     ∧ mood r' = mood r ∧ maxRecent r' = maxRecent r)
  ∧ (∀ e, GetByMood repo (mood r) instrumentalOnly = Err e →
       GetPlaylist repo r instrumentalOnly = Some (Err e, r)).
Proof.
  split.
  - intros res r'. apply GetPlaylist_keeps.
  - intros e Hq. unfold GetPlaylist. by rewrite Hq.
Qed.

(** X8 (nothing to shuffle): when at most one eligible track is outside
    the window, [GetPlaylist] draws no random number and the radio is left
    exactly as it was; the playlist is that track, if any, followed by the
    in-window tracks in store order.  When every eligible track is in the
    window the playlist is the store's list itself. *)
Theorem GetPlaylist_no_draw (repo : Repository) (r : Radio G)
    (instrumentalOnly : bool) (ts : list Track) :
  GetByMood repo (mood r) instrumentalOnly = Ok ts →
  length (filter (λ t, ID t ∉ recentlyPlayed r) ts) ≤ 1 →
  GetPlaylist repo r instrumentalOnly
  = Some (Ok (filter (λ t, ID t ∉ recentlyPlayed r) ts
              ++ filter (λ t, ID t ∈ recentlyPlayed r) ts), r)
  ∧ ((∀ t, t ∈ ts → ID t ∈ recentlyPlayed r) →
     GetPlaylist repo r instrumentalOnly = Some (Ok ts, r)).
Proof.
  intros Hq Hfew.
  assert (GetPlaylist repo r instrumentalOnly
          = Some (Ok (filter (λ t, ID t ∉ recentlyPlayed r) ts
                      ++ filter (λ t, ID t ∈ recentlyPlayed r) ts), r)) as Hget.
  { unfold GetPlaylist. rewrite Hq. case_decide as Hz.
    { apply length_zero_iff_nil in Hz. by subst ts. }
    unfold shuffleWithRecencyLocked. rewrite partitionRecent_filter. simpl.
    set (S := list_to_set (recentlyPlayed r) : gset Z).
    assert (filter (λ t, ID t ∈ S) ts = filter (λ t, ID t ∈ recentlyPlayed r) ts) as ->.
    { apply list_filter_iff. intros t. unfold S. by rewrite elem_of_list_to_set. }
    assert (filter (λ t, ID t ∉ S) ts = filter (λ t, ID t ∉ recentlyPlayed r) ts) as ->.
    { apply list_filter_iff. intros t. unfold S. by rewrite elem_of_list_to_set. }
    set (nonRecent := filter (λ t, ID t ∉ recentlyPlayed r) ts) in *.
    set (recent := filter (λ t, ID t ∈ recentlyPlayed r) ts).
    assert (length nonRecent + length recent = length ts) as Hlen.
    { unfold nonRecent, recent. rewrite Nat.add_comm, <- length_app.
      apply Permutation_length.
      apply (filter_app_complement (λ t, ID t ∈ recentlyPlayed r)). }
    replace (length nonRecent - 1) with 0 by lia. simpl.
    rewrite writeFrom_spec by lia. rewrite take_0. simpl.
    rewrite writeFrom_spec by (rewrite length_app, length_drop; lia).
    rewrite take_app_length.
    rewrite drop_ge by (rewrite length_app, length_drop; lia).
    by rewrite app_nil_r, Radio_eta. }
  split; [exact Hget|]. intros Hall. rewrite Hget.
  rewrite (filter_none (λ t, ID t ∉ recentlyPlayed r)).
  2:{ intros t Ht Hn. apply Hn. by apply Hall. }
  simpl. do 3 f_equal.
  clear -Hall. induction ts as [|t ts IH]; [done|].
  rewrite filter_cons_True by (apply Hall; left).
  f_equal. apply IH. intros u Hu. apply Hall. by right.
Qed.

(** X9 (a played track moves to the tail): after [RecordPlay] of [x] on a
    radio with a well-formed window of size at least one, the next
    playlist puts every track with ID [x] at a larger position than every
    track that is outside the window. *)
Theorem RecordPlay_then_GetPlaylist (repo : Repository) (r : Radio G) (x : Z)
    (instrumentalOnly : bool) (ts : list Track) :
  windowOK r →
  (1 ≤ maxRecent r)%Z →
  GetByMood repo (mood r) instrumentalOnly = Ok ts →
  ∃ playlist r',
    GetPlaylist repo (RecordPlay r x) instrumentalOnly = Some (Ok playlist, r')
    ∧ playlist ≡ₚ ts
    ∧ ∀ i j t u,
        playlist !! i = Some t → ID t = x →
        playlist !! j = Some u → ID u ∉ recentlyPlayed (RecordPlay r x) →
        j < i.
Proof.
  intros Hok Hmax Hq.
  pose proof (RecordPlay_elem_of r x (proj2 Hok) Hmax) as Hx.
  destruct (RecordPlay_frame r x) as (Hmood & _ & _).
  rewrite <- Hmood in Hq.
  destruct (GetPlaylist_shuffled repo (RecordPlay r x) instrumentalOnly ts Hq)
    as (sh & r' & Hget & Hp & _).
  set (w := recentlyPlayed (RecordPlay r x)) in *.
  eexists _, r'. split; [exact Hget|]. split.
  { rewrite Hp, Permutation_app_comm.
    apply (filter_app_complement (λ t, ID t ∈ w)). }
  intros i j t u Hi Ht Hj Hu.
  apply lookup_app_Some in Hi as [Hi|[Hi _]].
  { apply list_elem_of_lookup_2 in Hi. rewrite Hp in Hi.
    apply list_elem_of_filter in Hi as [Hn _]. destruct Hn. by rewrite Ht. }
  apply lookup_app_Some in Hj as [Hj|[_ Hj]].
  { apply lookup_lt_Some in Hj. lia. }
  apply list_elem_of_lookup_2 in Hj.
  apply list_elem_of_filter in Hj as [? _]. done.
Qed.

(** *** The registry *)

Lemma GetRadio_registryOK (m : Manager G) (seed : Z) (md : string) :
  registryOK m →
  (mood (GetRadio m seed md).1 = md
   ∧ maxRecent (GetRadio m seed md).1 = DefaultMaxRecent
   ∧ windowOK (GetRadio m seed md).1)
  ∧ registryOK (GetRadio m seed md).2.
Proof.
  intros Hok. unfold GetRadio.
  destruct (m !! md) as [r|] eqn:Hr; simpl.
  - split; [by apply Hok|done].
  - assert (windowOK (NewRadio (G := G) seed md)) as Hnew.
    { split; simpl; [apply NoDup_nil_2|done]. }
    split; [done|]. intros md' r'.
    destruct (decide (md = md')) as [<-|Hne].
    + rewrite lookup_insert_eq. by intros [= <-].
    + rewrite lookup_insert_ne by done. apply Hok.
Qed.

Lemma registryOK_insert (m : Manager G) (md : string) (r : Radio G) :
  registryOK m →
  mood r = md → maxRecent r = DefaultMaxRecent → windowOK r →
  registryOK (<[md := r]> m).
Proof.
  intros Hok Hm Hs Hw md' r'.
  destruct (decide (md = md')) as [<-|Hne].
  - rewrite lookup_insert_eq. by intros [= <-].
  - rewrite lookup_insert_ne by done. apply Hok.
Qed.

(** X10 (registry invariant): in the registry every radio sits under its
    own mood, has window size [DefaultMaxRecent] and a window of at most
    that many distinct IDs.  This holds for the new registry and is kept
    by [Manager.RecordPlay] and by [Manager.GetPlaylist]. *)
Theorem registry_invariant :
  registryOK (G := G) NewManager
  ∧ (∀ (m : Manager G) seed md x,
       registryOK m → registryOK (ManagerRecordPlay m seed md x))
  ∧ (∀ repo (m m' : Manager G) seed md instrumentalOnly res,
       registryOK m →
       ManagerGetPlaylist repo m seed md instrumentalOnly = Some (res, m') →
       registryOK m').
Proof.
  split_and!.
  - intros md r. unfold NewManager. by rewrite lookup_empty.
  - intros m seed md x Hok. unfold ManagerRecordPlay.
    destruct (GetRadio_registryOK m seed md Hok) as [(Hm & Hs & Hw) Hok1].
    destruct (GetRadio m seed md) as [r m1]. simpl in *.
    destruct (RecordPlay_frame r x) as (Hm' & Hs' & _).
    apply registryOK_insert; [done|congruence|congruence|].
    by apply RecordPlay_windowOK.
  - intros repo m m' seed md instrumentalOnly res Hok. unfold ManagerGetPlaylist.
    destruct (GetRadio_registryOK m seed md Hok) as [(Hm & Hs & Hw) Hok1].
    destruct (GetRadio m seed md) as [r m1]. simpl in *.
    destruct (GetPlaylist repo r instrumentalOnly) as [[res' r']|] eqn:Hg;
      simpl; [|done].
    intros [= _ <-].
    apply GetPlaylist_keeps in Hg as (Hw' & Hm' & Hs').
    apply registryOK_insert; [done|congruence|congruence|].
    unfold windowOK. by rewrite Hw', Hs'.
Qed.

(** X11 (one radio per mood): the first [RecordPlay] for a mood creates
    its radio with that single ID in the window; a radio, once created, is
    the one every later [GetRadio] returns, whatever the clock, and the
    registry is not changed by the lookup; and [RecordPlay] or
    [GetPlaylist] for one mood leaves the radio of every other mood as it
    is. *)
Theorem Manager_isolation (m : Manager G) (seed : Z) (md : string) :
  (∀ x, m !! md = None →
     ManagerRecordPlay m seed md x !! md
     = Some (MkRadio md [x] DefaultMaxRecent (NewSource seed)))
  ∧ (∀ seed', GetRadio (GetRadio m seed md).2 seed' md
              = ((GetRadio m seed md).1, (GetRadio m seed md).2))
  ∧ (∀ x md', md' ≠ md → ManagerRecordPlay m seed md x !! md' = m !! md')
  ∧ (∀ repo instrumentalOnly res m' md',
       ManagerGetPlaylist repo m seed md instrumentalOnly = Some (res, m') →
       md' ≠ md → m' !! md' = m !! md').
Proof.
  split_and!.
  - intros x Hnone. unfold ManagerRecordPlay, GetRadio. rewrite Hnone.
    by rewrite lookup_insert_eq.
  - intros seed'. unfold GetRadio. destruct (m !! md) as [r|] eqn:Hr; simpl.
    + by rewrite Hr.
    + by rewrite lookup_insert_eq.
  - intros x md' Hne. unfold ManagerRecordPlay, GetRadio.
    destruct (m !! md) as [r|] eqn:Hr; by rewrite !lookup_insert_ne.
  - intros repo instrumentalOnly res m' md'. unfold ManagerGetPlaylist, GetRadio.
    destruct (m !! md) as [r|] eqn:Hr;
      (destruct (GetPlaylist repo _ instrumentalOnly) as [[res' r']|]; simpl; [|done]);
      intros [= _ <-] Hne; by rewrite !lookup_insert_ne.
Qed.

End RadioEngine.

(** ** The catalog store: queries and play statistics *)

Section Store.
Import inventory.

Lemma insertOrdered_Permutation (t : Track) (l : list Track) :
  insertOrdered t l ≡ₚ t :: l.
Proof.
  induction l as [|u l IH]; simpl; [done|].
  destruct (orderLe t u); [done|]. rewrite IH. apply perm_swap.
Qed.

Lemma orderBy_Permutation (l : list Track) : orderBy l ≡ₚ l.
Proof.
  unfold orderBy. induction l as [|t l IH]; simpl; [done|].
  by rewrite insertOrdered_Permutation, IH.
Qed.

Lemma nullsFirstLe_total (a b : option Z) :
  nullsFirstLe a b = false → nullsFirstLe b a = true.
Proof.
  destruct a as [x|], b as [y|]; simpl; try done.
  rewrite bool_decide_eq_false, bool_decide_eq_true. lia.
Qed.

Lemma nullsFirstLe_trans (a b c : option Z) :
  nullsFirstLe a b = true → nullsFirstLe b c = true → nullsFirstLe a c = true.
Proof.
  destruct a as [x|], b as [y|], c as [z|]; simpl; try done.
  rewrite !bool_decide_eq_true. lia.
Qed.

Lemma orderLe_spec (a b : Track) :
  orderLe a b = true
  ↔ (PlayCount a < PlayCount b)%Z
    ∨ (PlayCount a = PlayCount b
       ∧ nullsFirstLe (LastPlayedAt a) (LastPlayedAt b) = true).
Proof.
  unfold orderLe. rewrite orb_true_iff, andb_true_iff, !bool_decide_eq_true. done.
Qed.

Lemma orderLe_total (a b : Track) : orderLe a b = false → orderLe b a = true.
Proof.
  intros Hab. apply orderLe_spec.
  destruct (orderLe b a) eqn:Hba; [by apply orderLe_spec|].
  assert (¬ ((PlayCount a < PlayCount b)%Z
             ∨ (PlayCount a = PlayCount b
                ∧ nullsFirstLe (LastPlayedAt a) (LastPlayedAt b) = true))) as Hn.
  { rewrite <- orderLe_spec. by rewrite Hab. }
  destruct (Z.lt_trichotomy (PlayCount a) (PlayCount b)) as [?|[Heq|?]].
  - destruct Hn. by left.
  - right. split; [done|]. apply nullsFirstLe_total.
    destruct (nullsFirstLe (LastPlayedAt a) (LastPlayedAt b)) eqn:Hl; [|done].
    destruct Hn. by right.
  - by left.
Qed.

Lemma orderLe_trans (a b c : Track) :
  orderLe a b = true → orderLe b c = true → orderLe a c = true.
Proof.
  rewrite !orderLe_spec. intros [?|[? ?]] [?|[? ?]].
  - left. lia.
  - left. lia.
  - left. lia.
  - right. split; [lia|]. by eapply nullsFirstLe_trans.
Qed.

Lemma insertOrdered_sorted (t : Track) (l : list Track) :
  StronglySorted (λ a b, orderLe a b = true) l →
  StronglySorted (λ a b, orderLe a b = true) (insertOrdered t l).
Proof.
  induction 1 as [|u l Hs IH Hu]; simpl.
  - repeat constructor.
  - destruct (orderLe t u) eqn:Htu.
    + constructor; [by constructor|]. constructor; [done|].
      eapply Forall_impl; [exact Hu|]. intros v Hv. simpl in Hv.
      by eapply orderLe_trans.
    + constructor; [done|].
      rewrite insertOrdered_Permutation. constructor; [|done].
      by apply orderLe_total.
Qed.

Lemma orderBy_sorted (l : list Track) :
  StronglySorted (λ a b, orderLe a b = true) (orderBy l).
Proof.
  unfold orderBy. induction l as [|t l IH]; simpl; [constructor|].
  by apply insertOrdered_sorted.
Qed.

Lemma StronglySorted_lookup {A} (R : A → A → Prop) (l : list A) (i j : nat) (a b : A) :
  StronglySorted R l → i < j → l !! i = Some a → l !! j = Some b → R a b.
Proof.
  intros Hs. revert i j. induction Hs as [|x l Hs IH Hx]; intros i j Hij Hi Hj.
  - done.
  - destruct j as [|j]; [lia|]. destruct i as [|i]; simpl in *.
    + simplify_eq. rewrite Forall_forall in Hx. apply Hx.
      by eapply list_elem_of_lookup_2.
    + apply (IH i j); [lia|done..].
Qed.

Lemma joinStats_fields (d : DB) (row : TrackRow) :
  ID (joinStats d row) = id row
  ∧ FilePath (joinStats d row) = file_path row
  ∧ Mood (joinStats d row) = mood row
  ∧ Status (joinStats d row) = status row
  ∧ DurationSeconds (joinStats d row) = duration_seconds row
  ∧ HasVocals (joinStats d row) = bool_decide (has_vocals row = 1%Z).
Proof. done. Qed.

(** X12 ([GetByMood] returns the eligible tracks): the answer holds, each
    once, exactly the rows of [tracks] with the requested mood and status
    "approved" (and [has_vocals = 0] when only instrumentals are asked
    for), joined with their play statistics; so every returned track has
    that mood, is approved, and is not vocal in an instrumental-only
    answer. *)
Theorem GetByMood_eligible (r : Repository) (m : string) (instrumentalOnly : bool)
    (ts : list Track) :
  GetByMood r m instrumentalOnly = Ok ts →
  ts ≡ₚ joinStats (db r)
          <$> List.filter (eligible m instrumentalOnly) (tracks (db r))
  ∧ (∀ t, t ∈ ts →
       Mood t = m ∧ Status t = StatusApproved
       ∧ (instrumentalOnly = true → HasVocals t = false))
  ∧ (∀ row, row ∈ tracks (db r) → mood row = m → status row = StatusApproved →
       (instrumentalOnly = true → has_vocals row = 0%Z) →
       joinStats (db r) row ∈ ts).
Proof.
  unfold GetByMood. destruct (getByMoodErr (faults r)); [done|].
  intros [= <-].
  pose proof (orderBy_Permutation
                (joinStats (db r)
                   <$> List.filter (eligible m instrumentalOnly) (tracks (db r))))
    as Hp.
  split; [done|]. split.
  - intros t Ht. rewrite Hp in Ht.
    apply list_elem_of_fmap in Ht as (row & -> & Hrow).
    apply list_elem_of_In, filter_In in Hrow as [_ Hel].
    unfold eligible in Hel.
    apply andb_true_iff in Hel as [Hel Hv]. apply andb_true_iff in Hel as [Hm Hs].
    apply bool_decide_eq_true in Hm, Hs. split_and!; [done..|].
    intros ->. apply bool_decide_eq_true in Hv. simpl.
    apply bool_decide_eq_false. lia.
  - intros row Hrow Hm Hs Hv. rewrite Hp.
    apply list_elem_of_fmap. exists row. split; [done|].
    apply list_elem_of_In, filter_In. split; [by apply list_elem_of_In|].
    unfold eligible. rewrite !bool_decide_eq_true_2 by done. simpl.
    destruct instrumentalOnly; [|done]. by rewrite bool_decide_eq_true_2 by auto.
Qed.

(** X13 ([GetByMood] orders least-played first): in the answer, a track
    at an earlier position never has more plays than a later one, and of
    two tracks with equal play counts the earlier one was last played no
    later than the other, never-played tracks first. *)
Theorem GetByMood_sorted (r : Repository) (m : string) (instrumentalOnly : bool)
    (ts : list Track) (i j : nat) (a b : Track) :
  GetByMood r m instrumentalOnly = Ok ts →
  i < j → ts !! i = Some a → ts !! j = Some b →
  (PlayCount a ≤ PlayCount b)%Z
  ∧ (PlayCount a = PlayCount b →
     match LastPlayedAt a, LastPlayedAt b with
     | None, _ => True
     | Some _, None => False
     | Some x, Some y => (x ≤ y)%Z
     end).
Proof.
  unfold GetByMood. destruct (getByMoodErr (faults r)); [done|].
  intros [= <-] Hij Hi Hj.
  pose proof (StronglySorted_lookup _ _ i j a b (orderBy_sorted _) Hij Hi Hj) as Hle.
  simpl in Hle. apply orderLe_spec in Hle. split; [lia|].
  intros Heq. destruct Hle as [?|[_ Hl]]; [lia|].
  destruct (LastPlayedAt a), (LastPlayedAt b); simpl in Hl; try done.
  by apply bool_decide_eq_true in Hl.
Qed.

Lemma findByID_Some (rows : list TrackRow) (trackID : Z) (row : TrackRow) :
  findByID rows trackID = Some row → row ∈ rows ∧ id row = trackID.
Proof.
  induction rows as [|r0 rows IH]; simpl; [done|].
  case_decide as Hid.
  - intros [= <-]. split; [by left|done].
  - intros Hf. destruct (IH Hf). split; [by right|done].
Qed.

Lemma findByID_None (rows : list TrackRow) (trackID : Z) :
  findByID rows trackID = None ↔ ∀ row, row ∈ rows → id row ≠ trackID.
Proof.
  induction rows as [|r0 rows IH]; simpl.
  - split; [|done]. by intros _ row ?%elem_of_nil.
  - case_decide as Hid.
    + split; [done|]. intros Hall. destruct (Hall r0); [by left|done].
    + rewrite IH. split.
      * intros Hall row [->|?]%elem_of_cons; [done|by apply Hall].
      * intros Hall row ?. apply Hall. by right.
Qed.

(** X14 ([GetByID]): without a storage fault the lookup never fails.  It
    returns nil exactly when no row of [tracks] has the ID; a returned
    track has the requested ID and is a row of [tracks] joined with its
    play statistics, with play count 0 and no last-played time when it has
    no [play_stats] row. *)
Theorem GetByID_lookup (r : Repository) (trackID : Z) :
  getByIDErr (faults r) = false →
  (∃ t, GetByID r trackID = Ok t)
  ∧ (GetByID r trackID = Ok None ↔ ∀ row, row ∈ tracks (db r) → id row ≠ trackID)
  ∧ (∀ t, GetByID r trackID = Ok (Some t) →
       ID t = trackID
       ∧ (∃ row, row ∈ tracks (db r) ∧ t = joinStats (db r) row)
       ∧ (play_stats (db r) !! FilePath t = None →
          PlayCount t = 0%Z ∧ LastPlayedAt t = None)).
Proof.
  intros Hf. unfold GetByID. rewrite Hf. split; [eauto|]. split.
  - rewrite <- findByID_None.
    destruct (findByID (tracks (db r)) trackID); simpl; split; intros; simplify_eq; done.
  - intros t. destruct (findByID (tracks (db r)) trackID) as [row|] eqn:Hrow;
      simpl; [|done].
    intros [= <-]. apply findByID_Some in Hrow as [Hin Hid].
    split; [done|]. split; [eauto|].
    simpl. unfold joinStats. intros ->. done.
Qed.

(** X15 ([UpdatePlayStats] then [GetByID]): for a track of the catalog,
    recording a play raises its play count by exactly one and sets its
    last-played time to the time of the call, whether or not it had a
    [play_stats] row; the statistics of every other file path, the
    [tracks] rows and the [listen_events] rows are unchanged.  For an ID
    that is not in the catalog the call fails. *)
Theorem UpdatePlayStats_roundtrip (r : Repository) (trackID now : Z) :
  getByIDErr (faults r) = false →
  updatePlayStatsErr (faults r) = false →
  (∀ t, GetByID r trackID = Ok (Some t) →
     ∃ r' t',
       UpdatePlayStats r trackID now = Ok r'
       ∧ GetByID r' trackID = Ok (Some t')
       ∧ PlayCount t' = (PlayCount t + 1)%Z
       ∧ LastPlayedAt t' = Some now
       ∧ ID t' = ID t ∧ FilePath t' = FilePath t ∧ Mood t' = Mood t
       ∧ tracks (db r') = tracks (db r)
       ∧ listen_events (db r') = listen_events (db r)
       ∧ ∀ path, path ≠ FilePath t →
           play_stats (db r') !! path = play_stats (db r) !! path)
  ∧ (GetByID r trackID = Ok None →
     UpdatePlayStats r trackID now = Err "failed to find track").
Proof.
  intros Hg Hu. unfold GetByID, UpdatePlayStats. rewrite Hg, Hu. simpl.
  destruct (findByID (tracks (db r)) trackID) as [row|] eqn:Hrow; simpl.
  - split; [|done]. intros t [= <-]. eexists _, _. split; [reflexivity|].
    simpl. rewrite Hrow, Hg. simpl. split; [reflexivity|].
    unfold joinStats. simpl. rewrite lookup_insert_eq. simpl.
    split_and!; try done.
    + by destruct (play_stats (db r) !! file_path row).
    + by destruct (play_stats (db r) !! file_path row).
    + intros path Hne. by rewrite lookup_insert_ne.
  - split; [done|]. done.
Qed.

(** X16 (the two write paths agree): [UpdatePlayStatsTx] run in a
    transaction of its own and committed has the effect and the result of
    [UpdatePlayStats]. *)
Theorem UpdatePlayStatsTx_commit (r : Repository) (trackID now : Z) :
  beginTxErr (faults r) = false →
  commitErr (faults r) = false →
  (try tx := BeginTx r in
   try tx1 := UpdatePlayStatsTx r tx trackID now in
   Commit r tx1)
  = UpdatePlayStats r trackID now.
Proof.
  intros Hb Hc. unfold BeginTx, UpdatePlayStatsTx, UpdatePlayStats, Commit, rbind.
  rewrite Hb. simpl. destruct (updatePlayStatsErr (faults r)); [done|].
  destruct (findByID (tracks (db r)) trackID); [|done]. by rewrite Hc.
Qed.

End Store.

(** ** The play report handler: what a report changes *)

Section PlayReports.
Import inventory api.
Context {G : Type} `{radio.RandSource G}.

(** The state after a report whose transaction committed. *)
Lemma recordPlay_committed (h : Handler G) (body : RequestBody) (trackID now : Z)
    (repo' : Repository) :
  let evt := reportedEvent (repo h) body trackID in
  mapBool validEventTypes (EventType evt) = true →
  recordPlayTx (repo h) evt trackID now = Ok repo' →
  recordPlay h body trackID now
  = (MkResponse StatusOK None (Text "ok"),
     if bool_decide (EventType evt = EventSkip)
     then MkHandler repo' (radio h) (audioResolver h) (cache h) (metrics h)
     else MkHandler repo'
            (match lookupTrack (repo h) trackID with
             | Some t => radio.ManagerRecordPlay (radio h) now (Mood t) trackID
             | None => radio h
             end)
            (audioResolver h) (cache h) (metrics.RecordPlay (metrics h))).
Proof.
  intros evt Hvalid Htx. unfold recordPlay.
  rewrite <- (reportedEvent_type (repo h)). fold evt. rewrite Hvalid. simpl.
  fold (reportedEvent (repo h) body trackID). fold evt. rewrite Htx.
  by destruct (bool_decide (EventType evt = EventSkip)).
Qed.

Lemma upsertPlay_count (now : Z) (ps : option PlayStat) :
  play_count (upsertPlay now ps) = (from_option play_count 0 ps + 1)%Z
  ∧ last_played_at (upsertPlay now ps) = Some now.
Proof. by destruct ps. Qed.

(** X17 (a report only adds): whatever the report and its outcome,
    [recordPlay] leaves the [tracks] table, the cache and the resolver as
    they are; the old [listen_events] rows remain, unchanged and in
    order, followed by at most one new row; and no file path loses its
    [play_stats] row or sees its play count decrease. *)
Theorem recordPlay_only_adds (h : Handler G) (body : RequestBody) (trackID now : Z) :
  let h' := (recordPlay h body trackID now).2 in
  tracks (db (repo h')) = tracks (db (repo h))
  ∧ cache h' = cache h
  ∧ audioResolver h' = audioResolver h
  ∧ listen_events (db (repo h)) `prefix_of` listen_events (db (repo h'))
  ∧ length (listen_events (db (repo h'))) ≤ length (listen_events (db (repo h))) + 1
  ∧ ∀ path s, play_stats (db (repo h)) !! path = Some s →
      ∃ s', play_stats (db (repo h')) !! path = Some s'
            ∧ (play_count s ≤ play_count s')%Z.
Proof.
  intros h'. unfold h'.
  destruct (recordPlay_cases h body trackID now)
    as [[_ ->]|[(_ & _ & ->)|(Hv & repo' & h1 & Htx & _)]]; simpl.
  - split_and!; try done; [lia|]. intros path s Hs. exists s. split; [done|lia].
  - split_and!; try done; [lia|]. intros path s Hs. exists s. split; [done|lia].
  - rewrite (recordPlay_committed h body trackID now repo' Hv Htx).
    apply recordPlayTx_Ok in Htx as (_ & Htr & Hps & Hle).
    assert (∀ hx : Handler G, repo hx = repo' →
              cache hx = cache h → audioResolver hx = audioResolver h →
              tracks (db (repo hx)) = tracks (db (repo h))
              ∧ cache hx = cache h
              ∧ audioResolver hx = audioResolver h
              ∧ listen_events (db (repo h)) `prefix_of` listen_events (db (repo hx))
              ∧ length (listen_events (db (repo hx)))
                ≤ length (listen_events (db (repo h))) + 1
              ∧ ∀ path s, play_stats (db (repo h)) !! path = Some s →
                  ∃ s', play_stats (db (repo hx)) !! path = Some s'
                        ∧ (play_count s ≤ play_count s')%Z) as Hrepo.
    { intros hx -> Hcache Hres. split_and!; [done..| | |].
      - rewrite Hle. by eexists.
      - rewrite Hle, length_app.
        destruct (bool_decide (EvMood _ = "")); simpl; lia.
      - intros path s Hs. rewrite Hps.
        destruct (bool_decide (EventType _ = EventSkip));
          [exists s; split; [done|lia]|].
        destruct (findByID (tracks (db (repo h))) trackID) as [row|];
          [|exists s; split; [done|lia]].
        destruct (decide (file_path row = path)) as [<-|Hne].
        + rewrite lookup_insert_eq, Hs. eexists. split; [done|]. simpl. lia.
        + rewrite lookup_insert_ne by done. exists s. split; [done|lia]. }
    clear Hps. destruct (bool_decide (EventType _ = EventSkip)); by apply Hrepo.
Qed.

(** X18 (a play or complete report): for a track of the catalog, an
    event kind other than "skip" and no storage fault, the report is
    answered 200; the track's play count is one higher and its last-played
    time is the time of the report; the plays counter is one higher
    (modulo 2^64); and when the event has a mood, supplied or from the
    catalog, exactly one [listen_events] row is added, carrying the event
    kind of the report. *)
Theorem recordPlay_play_counts (h : Handler G) (body : RequestBody)
    (trackID now : Z) (t : Track) :
  let evt := reportedEvent (repo h) body trackID in
  let h' := (recordPlay h body trackID now).2 in
  faults (repo h) = noFaults →
  GetByID (repo h) trackID = Ok (Some t) →
  mapBool validEventTypes (EventType evt) = true →
  EventType evt ≠ EventSkip →
  (recordPlay h body trackID now).1 = MkResponse StatusOK None (Text "ok")
  ∧ (∃ t', GetByID (repo h') trackID = Ok (Some t')
           ∧ PlayCount t' = (PlayCount t + 1)%Z
           ∧ LastPlayedAt t' = Some now)
  ∧ metrics.playsTotal (metrics h')
    = ((metrics.playsTotal (metrics h) + 1) `mod` 2 ^ 64)%Z
  ∧ listen_events (db (repo h'))
    = listen_events (db (repo h))
      ++ (if decide (EvMood evt = "") then [] else [listenRow evt now])
  ∧ le_event_type (listenRow evt now) = EventType (decodeEvent body trackID).
Proof.
  intros evt h' Hf Hget Hvalid Hskip.
  assert (∃ row, findByID (tracks (db (repo h))) trackID = Some row
                 ∧ t = joinStats (db (repo h)) row) as (row & Hrow & Ht).
  { unfold GetByID in Hget. rewrite Hf in Hget. simpl in Hget.
    destruct (findByID (tracks (db (repo h))) trackID) as [row|]; simplify_eq/=.
    eauto. }
  destruct (recordPlayTx_is_Ok (repo h) evt trackID now) as [repo' Htx];
    try (by rewrite Hf); [by apply validEventTypes_check|..].
  { right. rewrite Hf. split; [done|]. by rewrite Hrow. }
  unfold h'. rewrite (recordPlay_committed h body trackID now repo' Hvalid Htx).
  rewrite bool_decide_eq_false_2 by done. simpl.
  apply recordPlayTx_Ok in Htx as (Hfa & Htr & Hps & Hle).
  rewrite bool_decide_eq_false_2 in Hps by done. rewrite Hrow in Hps.
  split_and!; try done.
  - unfold GetByID. rewrite Hfa, Hf, Htr, Hrow. simpl. eexists. split; [done|].
    subst t. unfold joinStats. rewrite Hps, lookup_insert_eq. simpl.
    by destruct (play_stats (db (repo h)) !! file_path row).
  - rewrite Hle. f_equal. fold evt. by case_bool_decide; case_decide.
  - simpl. unfold evt. apply reportedEvent_type.
Qed.

Lemma ManagerRecordPlay_lookup (m : radio.Manager G) (seed : Z) (md : string) (x : Z) :
  radio.registryOK m →
  ∃ r, radio.ManagerRecordPlay m seed md x !! md = Some r
       ∧ x ∈ radio.recentlyPlayed r
       ∧ length (radio.recentlyPlayed r) ≤ 3.
Proof.
  intros Hok. unfold radio.ManagerRecordPlay.
  destruct (GetRadio_registryOK m seed md Hok) as [(Hm & Hs & Hw) _].
  destruct (radio.GetRadio m seed md) as [r m1]. simpl in *.
  rewrite lookup_insert_eq. eexists. split; [done|].
  split.
  - apply RecordPlay_elem_of; [apply Hw|]. rewrite Hs. done.
  - pose proof (RecordPlay_windowOK r x Hw) as [_ Hlen].
    rewrite RecordPlay_maxRecent, Hs in Hlen. unfold radio.DefaultMaxRecent in Hlen. lia.
Qed.

(** X19 (which window a play goes to): after a successful play or
    complete report for a track of the catalog, the track ID is in the
    recency window of the radio of the track's catalog mood, also when the
    report names another mood, and the radio of every other mood is as
    it was; the mood the report names is only what the [listen_events]
    row records. *)
Theorem recordPlay_recency_routing (h : Handler G) (body : RequestBody)
    (trackID now : Z) (t : Track) :
  let evt := reportedEvent (repo h) body trackID in
  let h' := (recordPlay h body trackID now).2 in
  radio.registryOK (radio h) →
  GetByID (repo h) trackID = Ok (Some t) →
  EventType evt ≠ EventSkip →
  StatusCode (recordPlay h body trackID now).1 = StatusOK →
  (∃ r, radio h' !! Mood t = Some r ∧ trackID ∈ radio.recentlyPlayed r)
  ∧ (∀ md, md ≠ Mood t → radio h' !! md = radio h !! md)
  ∧ radio.registryOK (radio h')
  ∧ EvMood evt
    = (if decide (EvMood (decodeEvent body trackID) = "") then Mood t
       else EvMood (decodeEvent body trackID)).
Proof.
  intros evt h' Hok Hget Hskip H200.
  assert (lookupTrack (repo h) trackID = Some t) as Hlk.
  { unfold lookupTrack. by rewrite Hget. }
  assert (radio h' = radio.ManagerRecordPlay (radio h) now (Mood t) trackID) as Hr.
  { unfold h'.
    destruct (recordPlay_cases h body trackID now)
      as [[_ Hrp]|[(_ & _ & Hrp)|(Hvalid & repo' & h1 & Htx & _)]];
      [rewrite Hrp in H200; done..|].
    rewrite (recordPlay_committed h body trackID now repo' Hvalid Htx).
    fold evt. rewrite bool_decide_eq_false_2 by done. simpl. by rewrite Hlk. }
  rewrite Hr. split_and!.
  - destruct (ManagerRecordPlay_lookup (radio h) now (Mood t) trackID Hok)
      as (r & ? & ? & _). eauto.
  - intros md Hne. unfold radio.ManagerRecordPlay, radio.GetRadio.
    destruct (radio h !! Mood t); by rewrite !lookup_insert_ne.
  - unfold radio.ManagerRecordPlay.
    destruct (GetRadio_registryOK (radio h) now (Mood t) Hok) as [(Hm & Hs & Hw) Hok1].
    destruct (radio.GetRadio (radio h) now (Mood t)) as [r m1]. simpl in *.
    destruct (RecordPlay_frame r trackID) as (Hm' & Hs' & _).
    apply registryOK_insert; [done|congruence|congruence|].
    by apply RecordPlay_windowOK.
  - unfold evt, reportedEvent, fillMood. rewrite Hlk.
    by repeat case_decide.
Qed.

(** X20 (the catalog lookup fails): when [GetByID] fails but the writes
    succeed, a play report for a track of the catalog is still answered
    200 and its play count is raised, but no recency window is touched,
    and a [listen_events] row is added only when the report itself names
    a mood. *)
Theorem recordPlay_lookup_failure (h : Handler G) (body : RequestBody)
    (trackID now : Z) (row : TrackRow) :
  let evt := decodeEvent body trackID in
  let h' := (recordPlay h body trackID now).2 in
  getByIDErr (faults (repo h)) = true →
  beginTxErr (faults (repo h)) = false →
  updatePlayStatsErr (faults (repo h)) = false →
  recordListenEventErr (faults (repo h)) = false →
  commitErr (faults (repo h)) = false →
  findByID (tracks (db (repo h))) trackID = Some row →
  mapBool validEventTypes (EventType evt) = true →
  EventType evt ≠ EventSkip →
  (recordPlay h body trackID now).1 = MkResponse StatusOK None (Text "ok")
  ∧ radio h' = radio h
  ∧ play_count <$> play_stats (db (repo h')) !! file_path row
    = Some (from_option play_count 0 (play_stats (db (repo h)) !! file_path row) + 1)%Z
  ∧ listen_events (db (repo h'))
    = listen_events (db (repo h))
      ++ (if decide (EvMood evt = "") then [] else [listenRow evt now]).
Proof.
  intros evt h' Hg Hb Hu Hl Hc Hrow Hvalid Hskip.
  assert (lookupTrack (repo h) trackID = None) as Hlk.
  { unfold lookupTrack, GetByID. by rewrite Hg. }
  assert (reportedEvent (repo h) body trackID = evt) as Hevt.
  { unfold reportedEvent. by rewrite Hlk. }
  destruct (recordPlayTx_is_Ok (repo h) evt trackID now) as [repo' Htx];
    try done; [by apply validEventTypes_check|..].
  { right. split; [done|]. by rewrite Hrow. }
  unfold h'. rewrite <- Hevt in Hvalid, Htx.
  rewrite (recordPlay_committed h body trackID now repo' Hvalid Htx).
  rewrite Hevt in *. rewrite bool_decide_eq_false_2 by done. simpl. rewrite Hlk.
  apply recordPlayTx_Ok in Htx as (_ & _ & Hps & Hle).
  rewrite bool_decide_eq_false_2 in Hps by done. rewrite Hrow in Hps.
  split_and!; try done.
  - rewrite Hps, lookup_insert_eq. simpl.
    by destruct (play_stats (db (repo h)) !! file_path row).
  - rewrite Hle. f_equal. by case_bool_decide; case_decide.
Qed.

(** X21 (invalid event kind): [recordPlay] answers 400 exactly when the
    body was decoded and names an event kind that is neither empty nor
    one of "play", "skip" and "complete"; nothing is read or written
    then. *)
Theorem recordPlay_bad_request (h : Handler G) (body : RequestBody) (trackID now : Z) :
  (StatusCode (recordPlay h body trackID now).1 = StatusBadRequest
   ↔ ∃ e, body = Decoded e ∧ EventType e ≠ ""
          ∧ EventType e ≠ EventPlay ∧ EventType e ≠ EventSkip
          ∧ EventType e ≠ EventComplete)
  ∧ (StatusCode (recordPlay h body trackID now).1 = StatusBadRequest →
     recordPlay h body trackID now
     = (httpError "invalid event type" StatusBadRequest, h)).
Proof.
  assert (mapBool validEventTypes (EventType (decodeEvent body trackID)) = false
          ↔ ∃ e, body = Decoded e ∧ EventType e ≠ ""
                 ∧ EventType e ≠ EventPlay ∧ EventType e ≠ EventSkip
                 ∧ EventType e ≠ EventComplete) as Hiff.
  { rewrite <- not_true_iff_false, validEventTypes_spec.
    unfold decodeEvent. destruct body as [| |e]; simpl.
    - split; [intros Hn; destruct Hn; by left|]. intros (e & ? & _). done.
    - split; [intros Hn; destruct Hn; by left|]. intros (e & ? & _). done.
    - case_decide as He.
      + split; [intros Hn; destruct Hn; by left|].
        intros (e' & [= <-] & ? & _). done.
      + split.
        * intros Hn. exists e. split_and!; try done; intros ?; apply Hn; auto.
        * intros (e' & [= <-] & _ & ? & ? & ?) [?|[?|?]]; done. }
  rewrite <- Hiff. clear Hiff.
  pose proof (recordPlay_cases h body trackID now) as Hcases. simpl in Hcases.
  rewrite reportedEvent_type in Hcases.
  set (valid := mapBool validEventTypes (EventType (decodeEvent body trackID))) in *.
  destruct Hcases as [[Hinv ->]|[(Hv & _ & ->)|(Hv & repo' & h1 & _ & -> & _)]];
    simpl.
  - by rewrite Hinv.
  - rewrite Hv. split; [split; intros; done|]. intros [=].
  - rewrite Hv. split; [split; intros; done|]. intros [=].
Qed.

(** *** A report with an unparseable body *)

(** A committed report of a kind other than "skip" found the track's row. *)
Lemma recordPlayTx_found (r r' : Repository) (evt : ListenEvent) (trackID now : Z) :
  recordPlayTx r evt trackID now = Ok r' →
  EventType evt ≠ EventSkip →
  is_Some (findByID (tracks (db r)) trackID).
Proof.
  unfold recordPlayTx, BeginTx, UpdatePlayStatsTx, RecordListenEventTx, Commit, rbind.
  intros Hok Hskip. rewrite bool_decide_eq_false_2 in Hok by done. simpl in Hok.
  repeat (case_match; simplify_eq/=); eauto.
Qed.

(** C8 (malformed body): a body that is not parseable JSON is decoded as
    the event of kind "play" with zero listened seconds, no mood and no
    position, the mood then being taken from the catalog; the handler does
    with it exactly what it does for that explicit event and for an empty
    body.  It is never rejected as a bad request: the only failure is the
    500 of a failed storage step, which changes nothing.  A 200 answer
    means the report was recorded as a play: the track's [play_stats] row
    is created or incremented and stamped, one [listen_events] row of kind
    "play" with 0 seconds is appended when the mood is known, the track
    enters the recency window of its mood and the plays counter is
    incremented.  For a track of the catalog and no storage fault the
    answer is 200. *)
Theorem recordPlay_malformed_body (h : Handler G) (trackID now : Z) :
  let play := MkListenEvent trackID "" EventPlay 0 None in
  let evt := reportedEvent (repo h) Malformed trackID in
  let resp := (recordPlay h Malformed trackID now).1 in
  let h' := (recordPlay h Malformed trackID now).2 in
  decodeEvent Malformed trackID = play
  ∧ evt = MkListenEvent trackID
                        (from_option Mood "" (lookupTrack (repo h) trackID))
                        EventPlay 0 None
  ∧ recordPlay h Malformed trackID now = recordPlay h (Decoded play) trackID now
  ∧ recordPlay h Malformed trackID now = recordPlay h NoBody trackID now
  ∧ StatusCode resp ≠ StatusBadRequest
  ∧ (StatusCode resp ≠ StatusOK →
     recordPlay h Malformed trackID now
     = (httpError "failed to record play" StatusInternalServerError, h)
     ∧ ∃ e, recordPlayTx (repo h) evt trackID now = Err e)
  ∧ (StatusCode resp = StatusOK →
     resp = MkResponse StatusOK None (Text "ok")
     ∧ (∃ row, findByID (tracks (db (repo h))) trackID = Some row
               ∧ play_stats (db (repo h'))
                 = <[file_path row
                     := upsertPlay now (play_stats (db (repo h)) !! file_path row)]>
                     (play_stats (db (repo h))))
     ∧ listen_events (db (repo h'))
       = listen_events (db (repo h))
         ++ (if decide (EvMood evt = "") then []
             else [MkListenRow trackID (EvMood evt) EventPlay 0 None now])
     ∧ radio h'
       = match lookupTrack (repo h) trackID with
         | Some t => radio.ManagerRecordPlay (radio h) now (Mood t) trackID
         | None => radio h
         end
     ∧ metrics h' = metrics.RecordPlay (metrics h))
  ∧ (∀ t, faults (repo h) = noFaults →
          GetByID (repo h) trackID = Ok (Some t) →
          StatusCode resp = StatusOK
          ∧ (∃ t', GetByID (repo h') trackID = Ok (Some t')
                   ∧ PlayCount t' = (PlayCount t + 1)%Z
                   ∧ LastPlayedAt t' = Some now)
          ∧ (Mood t ≠ "" →
             listen_events (db (repo h'))
             = listen_events (db (repo h))
               ++ [MkListenRow trackID (Mood t) EventPlay 0 None now])
          ∧ (radio.registryOK (radio h) →
             ∃ r, radio h' !! Mood t = Some r
                  ∧ trackID ∈ radio.recentlyPlayed r)).
Proof.
  intros play evt resp h'.
  assert (evt = MkListenEvent trackID
                  (from_option Mood "" (lookupTrack (repo h) trackID))
                  EventPlay 0 None) as Hevt.
  { unfold evt, reportedEvent, fillMood.
    destruct (lookupTrack (repo h) trackID); done. }
  assert (EventType evt = EventPlay) as Hty by (by rewrite Hevt).
  assert (EventType evt ≠ EventSkip) as Hskip by (by rewrite Hty).
  assert (mapBool validEventTypes (EventType evt) = true) as Hvalid.
  { apply validEventTypes_spec. by left. }
  assert (listenRow evt now = MkListenRow trackID (EvMood evt) EventPlay 0 None now)
    as Hrow.
  { unfold listenRow. by rewrite Hevt. }
  assert (∀ repo', recordPlayTx (repo h) evt trackID now = Ok repo' →
            recordPlay h Malformed trackID now
            = (MkResponse StatusOK None (Text "ok"),
               MkHandler repo'
                 (match lookupTrack (repo h) trackID with
                  | Some t => radio.ManagerRecordPlay (radio h) now (Mood t) trackID
                  | None => radio h
                  end)
                 (audioResolver h) (cache h) (metrics.RecordPlay (metrics h))))
    as Hcommitted.
  { intros repo' Htx.
    rewrite (recordPlay_committed h Malformed trackID now repo' Hvalid Htx).
    fold evt. by rewrite bool_decide_eq_false_2. }
  split; [done|]. split; [exact Hevt|]. split; [done|]. split; [done|].
  unfold resp, h'.
  destruct (recordPlay_cases h Malformed trackID now)
    as [[Hinv _]|[(_ & He & Hrp)|(_ & repo' & h1 & Htx & _)]].
  { fold evt in Hinv. congruence. }
  { fold evt in He. rewrite Hrp. simpl. split; [done|]. split; [done|].
    split; [intros [=]|]. intros t Hf Hget. exfalso.
    destruct He as [e He].
    destruct (recordPlayTx_is_Ok (repo h) evt trackID now) as [r' Hr'];
      try (by rewrite Hf); [by apply validEventTypes_check| |congruence].
    right. rewrite Hf. split; [done|].
    unfold GetByID in Hget. rewrite Hf in Hget. simpl in Hget.
    destruct (findByID (tracks (db (repo h))) trackID); by simplify_eq/=. }
  fold evt in Htx. rewrite (Hcommitted repo' Htx). simpl.
  destruct (recordPlayTx_found _ _ _ _ _ Htx Hskip) as [row Hfind].
  apply recordPlayTx_Ok in Htx as (Hfa & Htr & Hps & Hle).
  rewrite bool_decide_eq_false_2 in Hps by done. rewrite Hfind in Hps.
  assert (listen_events (db repo')
          = listen_events (db (repo h))
            ++ (if decide (EvMood evt = "") then []
                else [MkListenRow trackID (EvMood evt) EventPlay 0 None now]))
    as Hle'.
  { rewrite Hle, Hrow. f_equal. by case_bool_decide; case_decide. }
  split; [done|]. split; [done|].
  split.
  { intros _. split_and!; [done|eauto|exact Hle'|done|done]. }
  intros t Hf Hget.
  assert (lookupTrack (repo h) trackID = Some t) as Hlk.
  { unfold lookupTrack. by rewrite Hget. }
  assert (t = joinStats (db (repo h)) row) as Ht.
  { unfold GetByID in Hget. rewrite Hf, Hfind in Hget. by simplify_eq/=. }
  assert (EvMood evt = Mood t) as Hmood.
  { rewrite Hevt. simpl. by rewrite Hlk. }
  split; [done|]. split_and!.
  - unfold GetByID. rewrite Hfa, Hf, Htr, Hfind. simpl. eexists. split; [done|].
    subst t. unfold joinStats. rewrite Hps, lookup_insert_eq. simpl.
    by destruct (play_stats (db (repo h)) !! file_path row).
  - intros Hne. rewrite Hle', Hmood. by rewrite decide_False.
  - intros Hreg. rewrite Hlk.
    destruct (ManagerRecordPlay_lookup (radio h) now (Mood t) trackID Hreg)
      as (r & ? & ? & _). eauto.
Qed.

End PlayReports.

(** ** Request paths *)

Section Paths.
Import gostrings.

Lemma substring_all (s : string) : String.substring 0 (String.length s) s = s.
Proof. induction s as [|c s IH]; simpl; [done|]. by rewrite IH. Qed.

Lemma HasPrefix_app (pre s : string) : HasPrefix (pre +:+ s) pre = true.
Proof.
  unfold HasPrefix. induction pre as [|c pre IH]; simpl.
  - by destruct s.
  - destruct (ascii_dec c c); [done|congruence].
Qed.

Lemma TrimPrefix_app (pre s : string) : TrimPrefix (pre +:+ s) pre = s.
Proof.
  unfold TrimPrefix. rewrite HasPrefix_app.
  induction pre as [|c pre IH]; simpl.
  - rewrite Nat.sub_0_r. apply substring_all.
  - exact IH.
Qed.

Lemma Split_nonempty (s : string) : Split s ≠ [].
Proof.
  induction s as [|c s IH]; simpl; [done|].
  case_decide; [done|]. by destruct (Split s).
Qed.

Lemma Split_segment (seg rest : string) :
  noSlash seg = true → Split (seg +:+ "/" +:+ rest) = seg :: Split rest.
Proof.
  induction seg as [|c seg IH]; simpl; intros Hseg.
  - done.
  - apply andb_true_iff in Hseg as [Hc Hseg].
    apply negb_true_iff, bool_decide_eq_false in Hc.
    rewrite decide_False by done. by rewrite IH.
Qed.

Lemma Split_noSlash (seg : string) : noSlash seg = true → Split seg = [seg].
Proof.
  induction seg as [|c seg IH]; simpl; intros Hseg; [done|].
  apply andb_true_iff in Hseg as [Hc Hseg].
  apply negb_true_iff, bool_decide_eq_false in Hc.
  rewrite decide_False by done. by rewrite IH.
Qed.

End Paths.

(** ** The playlist handler: routing, caching and content *)

Section PlaylistHandler.
Import inventory gostrings api.
Context {G : Type} `{radio.RandSource G}.

Lemma validMoods_spec (m : string) :
  mapBool validMoods m = true
  ↔ m = "focus" ∨ m = "calm" ∨ m = "late_night" ∨ m = "energize".
Proof.
  unfold mapBool, validMoods. simpl.
  destruct (decide (m = "focus")) as [->|H1];
    [rewrite lookup_insert_eq; simpl; naive_solver|].
  rewrite lookup_insert_ne by done.
  destruct (decide (m = "calm")) as [->|H2];
    [rewrite lookup_insert_eq; simpl; naive_solver|].
  rewrite lookup_insert_ne by done.
  destruct (decide (m = "late_night")) as [->|H3];
    [rewrite lookup_insert_eq; simpl; naive_solver|].
  rewrite lookup_insert_ne by done.
  destruct (decide (m = "energize")) as [->|H4];
    [rewrite lookup_insert_eq; simpl; naive_solver|].
  rewrite lookup_insert_ne by done. rewrite lookup_empty. simpl.
  split; [done|]. intros [?|[?|[?|?]]]; done.
Qed.

(** X22 (routing of playlist requests): for a mood segment without a
    slash, [/api/moods/{mood}/playlist] is answered by [getPlaylist] for
    that mood when the mood is one of focus, calm, late_night and
    energize, and with 404 "Unknown mood" otherwise; path segments after
    [playlist] are ignored; a path without the [playlist] segment is 404
    "Not found"; and the instrumental flag is set only by the exact query
    value "true". *)
Theorem handleMoods_routing (h : Handler G) (mood instrumental : string) (now : Z) :
  noSlash mood = true →
  let known := mood = "focus" ∨ mood = "calm" ∨ mood = "late_night"
               ∨ mood = "energize" in
  let served := getPlaylist h mood (bool_decide (instrumental = "true")) now in
  let unknown := Some (httpError "Unknown mood" StatusNotFound, h) in
  (known →
   handleMoods h ("/api/moods/" +:+ mood +:+ "/playlist") instrumental now = served
   ∧ ∀ tail, handleMoods h ("/api/moods/" +:+ mood +:+ "/playlist/" +:+ tail)
               instrumental now = served)
  ∧ (¬ known →
     handleMoods h ("/api/moods/" +:+ mood +:+ "/playlist") instrumental now = unknown
     ∧ ∀ tail, handleMoods h ("/api/moods/" +:+ mood +:+ "/playlist/" +:+ tail)
                 instrumental now = unknown)
  ∧ handleMoods h ("/api/moods/" +:+ mood) instrumental now
    = Some (httpError "Not found" StatusNotFound, h).
Proof.
  intros Hseg known served unknown.
  assert (∀ rest, ∃ more,
            Split (TrimPrefix ("/api/moods/" +:+ mood +:+ "/playlist" +:+ rest)
                              "/api/moods/")
            = mood :: more
            ∧ (rest = "" ∨ (∃ tail, rest = "/" +:+ tail) →
               ∃ more', more = "playlist" :: more')) as Hsplit.
  { intros rest. rewrite TrimPrefix_app.
    replace (mood +:+ "/playlist" +:+ rest)
      with (mood +:+ "/" +:+ ("playlist" +:+ rest)) by done.
    rewrite Split_segment by done. eexists. split; [done|].
    intros [->|[tail ->]].
    - by eexists.
    - replace ("playlist" +:+ "/" +:+ tail) with ("playlist" +:+ "/" +:+ tail) by done.
      rewrite (Split_segment "playlist" tail) by done. by eexists. }
  assert (∀ rest, rest = "" ∨ (∃ tail, rest = "/" +:+ tail) →
            handleMoods h ("/api/moods/" +:+ mood +:+ "/playlist" +:+ rest)
              instrumental now
            = if mapBool validMoods mood then served else unknown) as Hroute.
  { intros rest Hrest. destruct (Hsplit rest) as (more & Hparts & Hmore).
    destruct (Hmore Hrest) as (more' & ->).
    unfold handleMoods. rewrite Hparts. simpl.
    by destruct (mapBool validMoods mood). }
  split_and!.
  - intros Hk. apply validMoods_spec in Hk. split.
    + pose proof (Hroute "" (or_introl eq_refl)) as Hr.
      rewrite Hk in Hr. exact Hr.
    + intros tail.
      pose proof (Hroute ("/" +:+ tail) (or_intror (ex_intro _ tail eq_refl))) as Hr.
      rewrite Hk in Hr. exact Hr.
  - intros Hk. unfold known in Hk. rewrite <- validMoods_spec in Hk.
    apply not_true_is_false in Hk. split.
    + pose proof (Hroute "" (or_introl eq_refl)) as Hr.
      rewrite Hk in Hr. exact Hr.
    + intros tail.
      pose proof (Hroute ("/" +:+ tail) (or_intror (ex_intro _ tail eq_refl))) as Hr.
      rewrite Hk in Hr. exact Hr.
  - unfold handleMoods. rewrite TrimPrefix_app, Split_noSlash by done. done.
Qed.

Lemma ManagerGetPlaylist_spec (r : Repository) (m : radio.Manager G) (seed : Z)
    (md : string) (instrumentalOnly : bool) :
  wfManager m →
  match GetByMood r md instrumentalOnly with
  | Ok ts => ∃ playlist m',
      radio.ManagerGetPlaylist r m seed md instrumentalOnly = Some (Ok playlist, m')
      ∧ playlist ≡ₚ ts
  | Err e => ∃ m',
      radio.ManagerGetPlaylist r m seed md instrumentalOnly = Some (Err e, m')
  end.
Proof.
  intros Hwf. unfold radio.ManagerGetPlaylist.
  destruct (GetRadio_mood m seed md Hwf) as [Hmood _].
  destruct (radio.GetRadio m seed md) as [rad m1]. simpl in *.
  destruct (GetByMood r md instrumentalOnly) as [ts|e] eqn:Hq.
  - rewrite <- Hmood in Hq.
    destruct (GetPlaylist_shuffled r rad instrumentalOnly ts Hq)
      as (sh & rad' & -> & Hp & _). simpl. eexists _, _. split; [done|].
    rewrite Hp, Permutation_app_comm.
    apply (filter_app_complement (λ t, ID t ∈ radio.recentlyPlayed rad)).
  - unfold radio.GetPlaylist. rewrite Hmood, Hq. simpl. eauto.
Qed.

(** X23 (playlist requests only read the catalog): [getPlaylist] never
    changes the database, the metrics or the resolver; it answers 200 or
    500, and 500 only on a cache miss when the store fails, in which case
    no cache entry is written. *)
Theorem getPlaylist_read_only (h : Handler G) (mood : string)
    (instrumentalOnly : bool) (now : Z) :
  ∃ resp h',
    getPlaylist h mood instrumentalOnly now = Some (resp, h')
    ∧ repo h' = repo h
    ∧ metrics h' = metrics h
    ∧ audioResolver h' = audioResolver h
    ∧ (StatusCode resp = StatusOK ∨ StatusCode resp = StatusInternalServerError)
    ∧ (StatusCode resp = StatusInternalServerError →
       (cache.Get (cache h) (cacheKey mood instrumentalOnly) now).1 = None
       ∧ cache.items (cache h') = cache.items (cache h)
       ∧ (wfManager (radio h) →
          ∃ e, GetByMood (repo h) mood instrumentalOnly = Err e)).
Proof.
  destruct (getPlaylist_cases h mood instrumentalOnly now)
    as [(v & Hhit & ->)|[(Hmiss & e & mgr & Hmgr & ->)
                        |(Hmiss & ts & mgr & slim & _ & _ & ->)]];
    eexists _, _; (split; [reflexivity|]); simpl.
  - split_and!; [done..|by left|]. intros [=].
  - split_and!; [done..|by right|]. intros _.
    split; [done|]. split; [apply Get_items|].
    intros Hwf.
    pose proof (ManagerGetPlaylist_spec (repo h) (radio h) now mood
                  instrumentalOnly Hwf) as Hspec.
    destruct (GetByMood (repo h) mood instrumentalOnly) as [ts|e'].
    + destruct Hspec as (? & ? & Hs & _). congruence.
    + eauto.
  - split_and!; [done..|by left|]. intros [=].
Qed.

(** X24 (a cached playlist is served again): after a request that was
    answered from the engine with a non-empty playlist at time [now],
    every request for the same mood and flag up to [now + DefaultTTL] is
    answered with the same playlist, marked HIT, without consulting the
    engine: the registry and the generators are untouched and only the
    hit counter moves. *)
Theorem getPlaylist_cached (h h1 : Handler G) (mood : string)
    (instrumentalOnly : bool) (now now' : Z) (slim : list PlaylistTrack) :
  getPlaylist h mood instrumentalOnly now
  = Some (MkResponse StatusOK (Some "MISS") (JSON (CachedPlaylist slim)), h1) →
  slim ≠ [] →
  (now ≤ now' ≤ now + cache.DefaultTTL)%Z →
  ∃ h2,
    getPlaylist h1 mood instrumentalOnly now'
    = Some (MkResponse StatusOK (Some "HIT") (JSON (CachedPlaylist slim)), h2)
    ∧ radio h2 = radio h1
    ∧ repo h2 = repo h1
    ∧ cache.items (cache h2) = cache.items (cache h1)
    ∧ cache.hits (cache h2) = (cache.hits (cache h1) + 1)%Z.
Proof.
  intros Hfirst Hne Hnow.
  set (key := cacheKey mood instrumentalOnly).
  assert (cache.items (cache h1) !! key
          = Some (cache.MkEntry (CachedPlaylist slim) (now + cache.DefaultTTL)%Z))
    as Hentry.
  { destruct (getPlaylist_cases h mood instrumentalOnly now)
      as [(v & _ & Hg)|[(_ & e & mgr & _ & Hg)
                       |(_ & ts & mgr & slim' & _ & _ & Hg)]];
      rewrite Hg in Hfirst; simplify_eq/=.
    destruct slim as [|pt slim]; [done|]. simpl.
    apply lookup_insert_eq. }
  unfold getPlaylist. fold key. unfold cache.Get. rewrite Hentry. simpl.
  unfold cache.After. rewrite bool_decide_eq_false_2 by lia. simpl.
  eexists. split; [reflexivity|]. done.
Qed.

(** X25 (what a computed playlist holds): on a cache miss with a store
    that answers, the response lists each eligible track exactly once
    (its IDs are a permutation of the store's), every entry carries the
    URL the resolver gives for its file path, and a non-empty playlist is
    stored in the cache under the request's key until [now + DefaultTTL]. *)
Theorem getPlaylist_content (h : Handler G) (mood : string)
    (instrumentalOnly : bool) (now : Z) (ts : list Track) :
  wfManager (radio h) →
  (cache.Get (cache h) (cacheKey mood instrumentalOnly) now).1 = None →
  GetByMood (repo h) mood instrumentalOnly = Ok ts →
  ∃ slim h',
    getPlaylist h mood instrumentalOnly now
    = Some (MkResponse StatusOK (Some "MISS") (JSON (CachedPlaylist slim)), h')
    ∧ pt_ID <$> slim ≡ₚ ID <$> ts
    ∧ pt_FilePath <$> slim ≡ₚ FilePath <$> ts
    ∧ (∀ pt, pt ∈ slim → pt_AudioURL pt = (audioResolver h (pt_FilePath pt)).1)
    ∧ (ts ≠ [] →
       cache.items (cache h') !! cacheKey mood instrumentalOnly
       = Some (cache.MkEntry (CachedPlaylist slim) (now + cache.DefaultTTL)%Z)).
Proof.
  intros Hwf Hmiss Hq.
  pose proof (ManagerGetPlaylist_spec (repo h) (radio h) now mood
                instrumentalOnly Hwf) as Hspec.
  rewrite Hq in Hspec. destruct Hspec as (playlist & m' & Hmgr & Hp).
  unfold getPlaylist.
  destruct (cache.Get (cache h) (cacheKey mood instrumentalOnly) now)
    as [cached c1] eqn:Hget.
  simpl in Hmiss. subst cached. rewrite Hmgr. simpl.
  eexists _, _. split; [reflexivity|].
  unfold toPlaylistTracks. rewrite <- !list_fmap_compose.
  split_and!.
  - by rewrite <- Hp.
  - by rewrite <- Hp.
  - intros pt Hpt. apply list_elem_of_fmap in Hpt as (t & -> & _). done.
  - intros Hts. simpl.
    assert (0 < length playlist) as Hlen.
    { rewrite (Permutation_length Hp). destruct ts; [done|simpl; lia]. }
    rewrite !length_fmap. rewrite decide_True by done. simpl.
    apply lookup_insert_eq.
Qed.

End PlaylistHandler.

(** ** The play report route *)

Section TrackRoute.
Import inventory gostrings gostrconv api.
Context {G : Type} `{radio.RandSource G}.

Lemma digitVal_range (c : ascii) (d : Z) : digitVal c = Some d → (0 ≤ d ≤ 9)%Z.
Proof. unfold digitVal. case_decide; [|done]. intros [= <-]. lia. Qed.

Lemma parseDigits_ge (s : string) (acc n : Z) :
  parseDigits s acc = Some n → (0 ≤ acc)%Z → (0 ≤ n)%Z.
Proof.
  revert acc. induction s as [|c s IH]; simpl; intros acc.
  - intros [= <-]. done.
  - destruct (digitVal c) as [d|] eqn:Hd; simpl; [|done].
    apply digitVal_range in Hd. intros Hp Hacc. apply (IH _ Hp). lia.
Qed.

Lemma ParseInt_range (s : string) (n : Z) :
  ParseInt s = Some n → (- 2 ^ 63 ≤ n < 2 ^ 63)%Z.
Proof.
  unfold ParseInt. destruct s as [|c s]; [done|].
  assert (∀ digits un, ParseUint digits = Some un → (0 ≤ un)%Z) as Hun.
  { intros digits un. unfold ParseUint. destruct digits; [done|].
    intros Hp. by apply (parseDigits_ge _ _ _ Hp). }
  assert (∀ (neg : bool) digits,
            (un ← ParseUint digits;
             if neg
             then (if decide (un ≤ 2 ^ 63)%Z then Some (- un)%Z else None)
             else (if decide (un < 2 ^ 63)%Z then Some un else None)) = Some n →
            (- 2 ^ 63 ≤ n < 2 ^ 63)%Z) as Hcase.
  { intros neg digits. destruct (ParseUint digits) as [un|] eqn:Hp; [|done].
    apply Hun in Hp. cbn [mbind option_bind].
    destruct neg; case_decide; intros; simplify_eq; lia. }
  destruct (decide (c = "+"%char)); [apply (Hcase false)|].
  destruct (decide (c = "-"%char)); [apply (Hcase true)|apply (Hcase false)].
Qed.

(** X26 (the play route): [handleTracks] changes the state only through
    [recordPlay]: for a path [/api/tracks/{id}/play] whose ID segment is
    a decimal [int64], a POST is handled as [recordPlay] for that ID, and
    any other method is answered 405; an ID segment that does not parse
    is answered 400 whatever the action and the method; and every answer
    other than 200 leaves the whole state as it was.  The ID handed to
    [recordPlay] is within the [int64] range. *)
Theorem handleTracks_routing (h : Handler G) (seg method : string)
    (body : RequestBody) (now : Z) :
  noSlash seg = true →
  let play := handleTracks h ("/api/tracks/" +:+ seg +:+ "/play") method body now in
  (∀ trackID, ParseInt seg = Some trackID →
     (- 2 ^ 63 ≤ trackID < 2 ^ 63)%Z
     ∧ (method = "POST" → play = recordPlay h body trackID now)
     ∧ (method ≠ "POST" →
        play = (httpError "Method not allowed" StatusMethodNotAllowed, h)))
  ∧ (ParseInt seg = None →
     play = (httpError "Invalid track ID" StatusBadRequest, h)
     ∧ ∀ action, noSlash action = true →
         handleTracks h ("/api/tracks/" +:+ seg +:+ "/" +:+ action) method body now
         = (httpError "Invalid track ID" StatusBadRequest, h))
  ∧ handleTracks h ("/api/tracks/" +:+ seg) method body now
    = (httpError "Not found" StatusNotFound, h)
  ∧ (StatusCode play.1 ≠ StatusOK → play.2 = h).
Proof.
  intros Hseg play.
  assert (∀ action, noSlash action = true →
            handleTracks h ("/api/tracks/" +:+ seg +:+ "/" +:+ action) method body now
            = match ParseInt seg with
              | None => (httpError "Invalid track ID" StatusBadRequest, h)
              | Some trackID =>
                  if decide (action = "play")
                  then if decide (method = "POST") then recordPlay h body trackID now
                       else (httpError "Method not allowed" StatusMethodNotAllowed, h)
                  else (httpError "Not found" StatusNotFound, h)
              end) as Hroute.
  { intros action Haction. unfold handleTracks. rewrite TrimPrefix_app.
    rewrite Split_segment, Split_noSlash by done. simpl.
    destruct (ParseInt seg); [|done].
    destruct (decide (action = "play")) as [->|Hne].
    - by rewrite decide_True.
    - rewrite decide_False; [done|]. by intros [= ?]. }
  assert (play = match ParseInt seg with
                 | None => (httpError "Invalid track ID" StatusBadRequest, h)
                 | Some trackID =>
                     if decide (method = "POST") then recordPlay h body trackID now
                     else (httpError "Method not allowed" StatusMethodNotAllowed, h)
                 end) as Hplay.
  { unfold play. etrans; [exact (Hroute "play" eq_refl)|].
    by destruct (ParseInt seg). }
  split_and!.
  - intros trackID Hid. split; [by apply (ParseInt_range seg)|].
    rewrite Hplay, Hid. split; intros Hm; [by rewrite decide_True|by rewrite decide_False].
  - intros Hid. rewrite Hplay, Hid. split; [done|].
    intros action Haction. by rewrite (Hroute action Haction), Hid.
  - unfold handleTracks. by rewrite TrimPrefix_app, Split_noSlash.
  - rewrite Hplay. destruct (ParseInt seg) as [trackID|]; [|done].
    case_decide; [|done].
    destruct (recordPlay_cases h body trackID now)
      as [[_ ->]|[(_ & _ & ->)|(_ & repo' & h1 & _ & -> & _)]]; done.
Qed.

End TrackRoute.

(** ** The local audio resolver *)

Section AudioResolver.
Import gostrings audio.
Variable Clean : string → string.

Lemma stripParents_unfold (c1 c2 c3 : ascii) (rest : string) :
  stripParents (String c1 (String c2 (String c3 rest)))
  = if HasPrefix (String c1 (String c2 (String c3 rest))) "../"
    then stripParents rest else String c1 (String c2 (String c3 rest)).
Proof. done. Qed.

Lemma HasPrefix_parent (s : string) :
  HasPrefix s "../" = true ↔ ∃ rest, s = "../" +:+ rest.
Proof.
  split.
  - unfold HasPrefix. destruct s as [|c1 [|c2 [|c3 rest]]]; cbn [String.prefix].
    + done.
    + by destruct (ascii_dec _ _).
    + destruct (ascii_dec _ _); [|done]. by destruct (ascii_dec _ _).
    + destruct (ascii_dec _ _); [|done]. destruct (ascii_dec _ _); [|done].
      destruct (ascii_dec _ _); [|done]. subst. intros _. by exists rest.
  - intros [rest ->]. apply HasPrefix_app.
Qed.

Lemma stripParents_spec (s : string) :
  HasPrefix (stripParents s) "../" = false
  ∧ ∃ n, s = Nat.iter n (String.append "../") (stripParents s).
Proof.
  remember (String.length s) as len eqn:Hlen.
  revert s Hlen. induction len as [len IH] using lt_wf_ind. intros s Hlen.
  destruct (HasPrefix s "../") eqn:Hp.
  - apply HasPrefix_parent in Hp as [rest ->].
    change ("../" +:+ rest) with (String "." (String "." (String "/" rest))).
    rewrite stripParents_unfold.
    change (String "." (String "." (String "/" rest))) with ("../" +:+ rest).
    rewrite HasPrefix_app.
    assert (String.length rest < len) as Hlt.
    { subst len.
      change ("../" +:+ rest) with (String "." (String "." (String "/" rest))).
      simpl. lia. }
    destruct (IH (String.length rest) Hlt rest eq_refl) as [Hno [n Hn]].
    split; [done|]. exists (S n). simpl. by rewrite <- Hn.
  - assert (stripParents s = s) as ->.
    { destruct s as [|c1 [|c2 [|c3 rest]]]; try done.
      by rewrite stripParents_unfold, Hp. }
    split; [done|]. by exists 0.
Qed.

(** X27 ([sanitizePath]): whatever [path.Clean] returns, the sanitised
    path does not start with "../", and it is what is left of the cleaned
    path after one leading "/" and then every leading "../" are cut:
    nothing else is removed or rewritten. *)
Theorem sanitizePath_spec (filePath : string) :
  HasPrefix (sanitizePath Clean filePath) "../" = false
  ∧ ∃ n,
      TrimPrefix (Clean filePath) "/"
      = Nat.iter n (String.append "../") (sanitizePath Clean filePath).
Proof. unfold sanitizePath. apply stripParents_spec. Qed.

Lemma TrimLeftSlash_idem (s : string) :
  TrimLeftSlash (TrimLeftSlash s) = TrimLeftSlash s.
Proof.
  induction s as [|c s IH]; simpl; [done|].
  case_decide as Hc; [done|]. simpl. by rewrite decide_False.
Qed.

Lemma TrimRightSlash_idem (s : string) :
  TrimRightSlash (TrimRightSlash s) = TrimRightSlash s.
Proof.
  induction s as [|c s IH]; simpl; [done|].
  destruct (TrimRightSlash s) as [|c' t] eqn:Ht.
  - case_decide as Hc; [done|]. simpl. by rewrite decide_False.
  - simpl in *. by rewrite IH.
Qed.

Lemma TrimRightSlash_cons (c : ascii) (u : string) :
  TrimRightSlash (String c u) = String c u → u = "" ∨ TrimRightSlash u = u.
Proof.
  simpl. destruct (TrimRightSlash u) as [|c' t] eqn:Ht.
  - case_decide; [done|]. intros [= <-]. by left.
  - intros [= <-]. by right.
Qed.

Lemma TrimRight_TrimLeft (u : string) :
  TrimRightSlash u = u → TrimRightSlash (TrimLeftSlash u) = TrimLeftSlash u.
Proof.
  induction u as [|c u IH]; [done|]. intros Hu.
  cbn [TrimLeftSlash]. case_decide as Hc; [|done].
  destruct (TrimRightSlash_cons c u Hu) as [->|Hu']; [done|]. by apply IH.
Qed.

Lemma TrimSlash_slash (t : string) :
  TrimRightSlash t = t → TrimLeftSlash t = t → TrimSlash ("/" +:+ t) = t.
Proof.
  intros Hr Hl. unfold TrimSlash.
  change ("/" +:+ t) with (String "/" t). cbn [TrimRightSlash]. rewrite Hr.
  destruct t as [|c t]; [done|]. cbn [TrimLeftSlash].
  rewrite decide_True by done. exact Hl.
Qed.

(** X28 ([NewResolver] normalises the base path): the base path of a
    resolver is "/" followed by the given path without its leading and
    trailing slashes, so building a resolver from a resolver's base path
    gives the same resolver; and [ResolveURL] never returns an error:
    every URL is the base path, a "/", and the sanitised file path. *)
Theorem NewResolver_normalises (basePath filePath : string) :
  let r := NewResolver basePath in
  BasePath r = "/" +:+ TrimSlash basePath
  ∧ TrimSlash (TrimSlash basePath) = TrimSlash basePath
  ∧ NewResolver (BasePath r) = r
  ∧ ResolveURL Clean r filePath
    = ("/" +:+ TrimSlash basePath +:+ "/" +:+ sanitizePath Clean filePath, false)
  ∧ HasPrefix (ResolveURL Clean r filePath).1 (BasePath r +:+ "/") = true.
Proof.
  intros r.
  assert (TrimRightSlash (TrimSlash basePath) = TrimSlash basePath) as Hr.
  { unfold TrimSlash. apply TrimRight_TrimLeft, TrimRightSlash_idem. }
  assert (TrimLeftSlash (TrimSlash basePath) = TrimSlash basePath) as Hl.
  { unfold TrimSlash. apply TrimLeftSlash_idem. }
  split_and!.
  - done.
  - unfold TrimSlash at 1. by rewrite Hr, Hl.
  - unfold r, NewResolver. simpl. by rewrite TrimSlash_slash.
  - done.
  - unfold ResolveURL. simpl.
    assert (∀ a b c : string, a +:+ b +:+ c = (a +:+ b) +:+ c) as Hassoc.
    { intros a b c. induction a as [|x a IH]; [done|].
      change (String x (a +:+ b +:+ c) = String x ((a +:+ b) +:+ c)).
      by rewrite IH. }
    rewrite Hassoc. apply HasPrefix_app.
Qed.

End AudioResolver.

(** ** The catalog store: mood statistics *)

Section MoodStatistics.
Import inventory.

Local Abbreviation ofMood m := (λ row : TrackRow, mood row = m).
Local Abbreviation count m rows := (Z.of_nat (length (filter (ofMood m) rows))).
Local Abbreviation total m rows :=
  (foldr Z.add 0%Z (duration_seconds <$> filter (ofMood m) rows)).

Lemma List_filter_bool_decide {A} (P : A → Prop) `{∀ x, Decision (P x)} (l : list A) :
  List.filter (λ x, bool_decide (P x)) l = filter P l.
Proof.
  induction l as [|x l IH]; simpl; [done|].
  rewrite filter_cons. case_bool_decide; case_decide; try done. by rewrite IH.
Qed.

Lemma addToGroup_moods (row : TrackRow) (gs : list MoodStats) :
  MsMood <$> addToGroup row gs
  = if decide (mood row ∈ MsMood <$> gs) then MsMood <$> gs
    else (MsMood <$> gs) ++ [mood row].
Proof.
  induction gs as [|g gs IH]; cbn [addToGroup].
  - done.
  - destruct (decide (MsMood g = mood row)) as [Hg|Hg]; rewrite !fmap_cons.
    + rewrite decide_True; [done|]. rewrite <- Hg. by left.
    + rewrite IH. destruct (decide (mood row ∈ MsMood <$> gs)) as [Hin|Hout].
      * rewrite decide_True; [done|]. by right.
      * rewrite decide_False; [done|].
        intros [?|?]%elem_of_cons; [congruence|done].
Qed.

Lemma addToGroup_elem (row : TrackRow) (gs : list MoodStats) (g' : MoodStats) :
  NoDup (MsMood <$> gs) →
  g' ∈ addToGroup row gs →
  (g' ∈ gs ∧ MsMood g' ≠ mood row)
  ∨ (MsMood g' = mood row
     ∧ ((∃ g, g ∈ gs ∧ MsMood g = mood row
              ∧ MsTrackCount g' = (MsTrackCount g + 1)%Z
              ∧ MsTotalSeconds g' = (MsTotalSeconds g + duration_seconds row)%Z)
        ∨ ((mood row ∉ MsMood <$> gs)
           ∧ MsTrackCount g' = 1%Z
           ∧ MsTotalSeconds g' = duration_seconds row))).
Proof.
  induction gs as [|g gs IH]; simpl; intros Hnd Hin.
  - apply list_elem_of_singleton in Hin as ->. right. split; [done|]. right.
    split; [|done]. by intros ?%elem_of_nil.
  - apply NoDup_cons in Hnd as [Hg Hnd].
    destruct (decide (MsMood g = mood row)) as [Hm|Hm].
    + apply elem_of_cons in Hin as [->|Hin].
      * right. split; [done|]. left. exists g. split; [by left|done].
      * left. split; [by right|]. intros Heq. apply Hg.
        rewrite Hm, <- Heq. by apply list_elem_of_fmap_2.
    + apply elem_of_cons in Hin as [->|Hin].
      * left. split; [by left|done].
      * destruct (IH Hnd Hin) as [[? ?]|[Heq [(g0 & ? & ? & ? & ?)|(Hout & ? & ?)]]].
        -- left. split; [by right|done].
        -- right. split; [done|]. left. exists g0. split; [by right|done].
        -- right. split; [done|]. right. split; [|done].
           intros [?|?]%elem_of_cons; [congruence|done].
Qed.

Lemma groupByMood_spec (rows : list TrackRow) :
  NoDup (MsMood <$> groupByMood rows)
  ∧ (∀ row, row ∈ rows → mood row ∈ MsMood <$> groupByMood rows)
  ∧ (∀ g, g ∈ groupByMood rows →
       MsTrackCount g = count (MsMood g) rows
       ∧ MsTotalSeconds g = total (MsMood g) rows
       ∧ (1 ≤ MsTrackCount g)%Z).
Proof.
  unfold groupByMood. induction rows as [|row rows IH] using rev_ind.
  - simpl. split; [apply NoDup_nil_2|]. split; intros ? ?%elem_of_nil; done.
  - rewrite foldl_snoc.
    set (gs := foldl (λ groups row0, addToGroup row0 groups) [] rows) in *.
    destruct IH as (Hnd & Hcover & Hgroups).
    assert (NoDup (MsMood <$> addToGroup row gs)) as Hnd'.
    { rewrite addToGroup_moods. case_decide; [done|].
      apply NoDup_app. split_and!; [done| |apply NoDup_singleton].
      intros m Hm Hm'. apply list_elem_of_singleton in Hm' as ->. done. }
    split; [done|]. split.
    + intros row' Hrow'. apply elem_of_app in Hrow' as [Hin|Hin].
      * rewrite addToGroup_moods. case_decide; [by apply Hcover|].
        apply elem_of_app. left. by apply Hcover.
      * apply list_elem_of_singleton in Hin as ->.
        rewrite addToGroup_moods. case_decide; [done|].
        apply elem_of_app. right. by left.
    + intros g' Hg'. rewrite !filter_app, !fmap_app, !foldr_app, !length_app.
      rewrite !filter_cons, !filter_nil.
      destruct (addToGroup_elem row gs g' Hnd Hg')
        as [[Hin Hne]|[Heq [(g0 & Hin & Hm0 & Hc & Ht)|(Hout & Hc & Ht)]]].
      * rewrite decide_False by done. simpl. rewrite Nat.add_0_r.
        by apply Hgroups.
      * rewrite decide_True by done. simpl.
        destruct (Hgroups g0 Hin) as (Hc0 & Ht0 & Hpos).
        rewrite Heq, <- Hm0, Hc, Ht, Hc0, Ht0.
        split_and!; [lia| |lia].
        clear. induction (duration_seconds <$> filter (ofMood (MsMood g0)) rows)
          as [|d ds IHd]; simpl; lia.
      * rewrite decide_True by done. simpl.
        assert (filter (ofMood (MsMood g')) rows = []) as ->.
        { apply filter_none. intros row' Hrow' Hm'. apply Hout.
          rewrite <- Heq, <- Hm'. by apply Hcover. }
        simpl. rewrite Hc, Ht. split_and!; lia.
Qed.

Lemma eligible_length (m : string) (rows : list TrackRow) :
  length (List.filter (eligible m false) rows)
  = length (filter (ofMood m) (filter (λ row, status row = StatusApproved) rows)).
Proof.
  induction rows as [|row rows IH]; [done|].
  cbn [List.filter]. rewrite (filter_cons (λ row, status row = StatusApproved)).
  unfold eligible at 1.
  destruct (decide (status row = StatusApproved)) as [Hs|Hs].
  - rewrite filter_cons. destruct (decide (mood row = m)) as [Hm|Hm].
    + rewrite !bool_decide_eq_true_2 by done. cbn [andb length]. by rewrite IH.
    + rewrite (bool_decide_eq_false_2 (mood row = m)) by done. cbn [andb]. exact IH.
  - rewrite (bool_decide_eq_false_2 (status row = StatusApproved)) by done.
    rewrite andb_false_r. cbn [andb]. exact IH.
Qed.

Lemma insertByMood_Permutation (g : MoodStats) (l : list MoodStats) :
  insertByMood g l ≡ₚ g :: l.
Proof.
  induction l as [|u l IH]; simpl; [done|].
  destruct (String.leb _ _); [done|]. rewrite IH. apply perm_swap.
Qed.

(** X29 ([GetMoodStats] groups the approved tracks): the answer has one
    entry per mood that has an approved track and none for any other
    mood; the entry's track count is the number of approved tracks of the
    mood, at least one, and its total is the sum of their durations; the
    count is the length of the playlist [GetByMood] returns for that mood
    without the instrumental filter. *)
Theorem GetMoodStats_groups (r : Repository) (stats : list MoodStats) :
  GetMoodStats r false = Ok stats →
  let approved := filter (λ row, status row = StatusApproved) (tracks (db r)) in
  NoDup (MsMood <$> stats)
  ∧ (∀ m, m ∈ MsMood <$> stats
          ↔ ∃ row, row ∈ tracks (db r) ∧ status row = StatusApproved ∧ mood row = m)
  ∧ (∀ g, g ∈ stats →
       MsTrackCount g = Z.of_nat (length (filter (λ row, mood row = MsMood g) approved))
       ∧ MsTotalSeconds g
         = foldr Z.add 0%Z
             (duration_seconds <$> filter (λ row, mood row = MsMood g) approved)
       ∧ (1 ≤ MsTrackCount g)%Z)
  ∧ (∀ g ts, g ∈ stats → GetByMood r (MsMood g) false = Ok ts →
       Z.of_nat (length ts) = MsTrackCount g).
Proof.
  intros Hq approved. unfold GetMoodStats in Hq. injection Hq as <-.
  rewrite (List_filter_bool_decide (λ row, status row = StatusApproved)).
  fold approved.
  assert (foldr insertByMood [] (groupByMood approved) ≡ₚ groupByMood approved) as Hp.
  { induction (groupByMood approved) as [|g l IH]; simpl; [done|].
    by rewrite insertByMood_Permutation, IH. }
  destruct (groupByMood_spec approved) as (Hnd & Hcover & Hgroups).
  split_and!.
  - by rewrite Hp.
  - intros m. rewrite Hp. split.
    + intros Hm. apply list_elem_of_fmap in Hm as (g & -> & Hg).
      destruct (Hgroups g Hg) as (Hc & _ & Hpos).
      destruct (filter (ofMood (MsMood g)) approved) as [|row l] eqn:Hf;
        [simpl in Hc; lia|].
      assert (row ∈ filter (ofMood (MsMood g)) approved) as Hrow
          by (rewrite Hf; by left).
      apply list_elem_of_filter in Hrow as [Hm Hrow].
      apply list_elem_of_filter in Hrow as [Hs Hrow]. eauto.
    + intros (row & Hrow & Hs & <-). apply Hcover.
      by apply list_elem_of_filter.
  - intros g Hg. rewrite Hp in Hg. by apply Hgroups.
  - intros g ts Hg. rewrite Hp in Hg.
    destruct (Hgroups g Hg) as (-> & _ & _).
    unfold GetByMood. destruct (getByMoodErr (faults r)); [done|].
    intros [= <-]. rewrite (Permutation_length (orderBy_Permutation _)).
    rewrite length_fmap. f_equal. apply eligible_length.
Qed.

End MoodStatistics.

(** ** The further properties on the sample catalog *)

Section FurtherExamples.
Import inventory gostrings gostrconv api sample.

Lemma RecordPlay_window_invariant_witness :
  radio.windowOK (radio.RecordPlay sampleRadio 3)
  ∧ 3%Z ∈ radio.recentlyPlayed (radio.RecordPlay sampleRadio 3).
Proof.
  assert (radio.windowOK sampleRadio) as Hok.
  { split; [|simpl; lia]. apply (bool_decide_unpack _). vm_compute. reflexivity. }
  destruct (RecordPlay_window_invariant sampleRadio 3 Hok) as (Hw & _ & _ & _ & Hin).
  split; [exact Hw|]. apply Hin. simpl. lia.
Defined.

(** The "calm" radio has one eligible track: no draw, the radio is the
    same afterwards. *)
Lemma GetPlaylist_no_draw_witness :
  let r := radio.MkRadio "calm" [] 3 42%Z in
  ∃ ts, radio.GetPlaylist sampleRepo r false = Some (Ok ts, r) ∧ idsOf (Ok ts) = [5%Z].
Proof.
  cbv zeta.
  let ts := eval vm_compute in
      (match GetByMood sampleRepo "calm" false with Ok ts => ts | Err _ => [] end) in
  destruct (GetPlaylist_no_draw sampleRepo (radio.MkRadio "calm" [] 3 42%Z) false ts)
    as [Hget _]; [vm_compute; reflexivity|vm_compute; lia|].
  eexists. split; [exact Hget|]. vm_compute. reflexivity.
Defined.

Lemma RecordPlay_then_GetPlaylist_witness :
  ∃ playlist r',
    radio.GetPlaylist sampleRepo (radio.RecordPlay sampleRadio 3) false
    = Some (Ok playlist, r')
    ∧ ∀ i j t u,
        playlist !! i = Some t → ID t = 3%Z →
        playlist !! j = Some u →
        ID u ∉ radio.recentlyPlayed (radio.RecordPlay sampleRadio 3) →
        j < i.
Proof.
  let ts := eval vm_compute in
      (match GetByMood sampleRepo "focus" false with Ok ts => ts | Err _ => [] end) in
  destruct (RecordPlay_then_GetPlaylist sampleRepo sampleRadio 3 false ts)
    as (playlist & r' & Hget & _ & Hpos).
  - split; [|simpl; lia]. apply (bool_decide_unpack _). vm_compute. reflexivity.
  - simpl. lia.
  - vm_compute. reflexivity.
  - exists playlist, r'. split; [exact Hget|exact Hpos].
Defined.

Lemma GetByMood_eligible_witness :
  ∃ ts, GetByMood sampleRepo "focus" false = Ok ts
        ∧ ∀ t, t ∈ ts → Mood t = "focus" ∧ Status t = StatusApproved.
Proof.
  let ts := eval vm_compute in
      (match GetByMood sampleRepo "focus" false with Ok ts => ts | Err _ => [] end) in
  destruct (GetByMood_eligible sampleRepo "focus" false ts) as (_ & Hall & _);
    [vm_compute; reflexivity|exists ts].
  split; [vm_compute; reflexivity|].
  intros t Ht. destruct (Hall t Ht) as (? & ? & _). done.
Defined.

Lemma GetByMood_sorted_witness :
  ∃ ts a b,
    GetByMood sampleRepo "focus" false = Ok ts
    ∧ ts !! 1 = Some a ∧ ts !! 3 = Some b
    ∧ (PlayCount a ≤ PlayCount b)%Z.
Proof.
  let ts := eval vm_compute in
      (match GetByMood sampleRepo "focus" false with Ok ts => ts | Err _ => [] end) in
  let a := eval vm_compute in (default (toTrack (row 0 "" "" 0) None) (ts !! 1)) in
  let b := eval vm_compute in (default (toTrack (row 0 "" "" 0) None) (ts !! 3)) in
  exists ts, a, b;
  destruct (GetByMood_sorted sampleRepo "focus" false ts 1 3 a b) as [Hle _];
    [vm_compute; reflexivity|lia|reflexivity|reflexivity|].
  split; [vm_compute; reflexivity|]. split; [reflexivity|]. split; [reflexivity|].
  exact Hle.
Defined.

Lemma GetByID_lookup_witness :
  (∃ t, GetByID sampleRepo 2 = Ok t)
  ∧ GetByID sampleRepo 999 = Ok None.
Proof.
  destruct (GetByID_lookup sampleRepo 2 eq_refl) as (Hsome & _).
  destruct (GetByID_lookup sampleRepo 999 eq_refl) as (_ & Hnone & _).
  split; [exact Hsome|]. apply Hnone.
  intros r Hr. apply list_elem_of_In in Hr. simpl in Hr.
  destruct Hr as [<-|[<-|[<-|[<-|[<-|[]]]]]]; discriminate.
Defined.

(** [TestUpdatePlayStats_NewTrack]: track 2 has no [play_stats] row. *)
Lemma UpdatePlayStats_roundtrip_witness :
  ∃ r' t',
    UpdatePlayStats sampleRepo 2 77 = Ok r'
    ∧ GetByID r' 2 = Ok (Some t')
    ∧ PlayCount t' = 1%Z ∧ LastPlayedAt t' = Some 77%Z.
Proof.
  destruct (UpdatePlayStats_roundtrip sampleRepo 2 77 eq_refl eq_refl) as [Hup _].
  let t := eval vm_compute in
      (match GetByID sampleRepo 2 with
       | Ok (Some t) => t | _ => toTrack (row 0 "" "" 0) None end) in
  destruct (Hup t) as (r' & t' & Hu & Hg & Hc & Hl & _); [vm_compute; reflexivity|].
  exists r', t'. split; [exact Hu|]. split; [exact Hg|]. split; [exact Hc|exact Hl].
Defined.

Lemma UpdatePlayStatsTx_commit_witness :
  (try tx := BeginTx sampleRepo in
   try tx1 := UpdatePlayStatsTx sampleRepo tx 1 77 in
   Commit sampleRepo tx1)
  = UpdatePlayStats sampleRepo 1 77.
Proof. apply (UpdatePlayStatsTx_commit sampleRepo 1 77); reflexivity. Defined.

Lemma GetMoodStats_groups_witness :
  ∃ stats,
    GetMoodStats sampleRepo false = Ok stats
    ∧ NoDup (MsMood <$> stats)
    ∧ MsMood <$> stats = ["calm"; "focus"]
    ∧ MsTrackCount <$> stats = [1; 4]%Z.
Proof.
  let stats := eval vm_compute in
      (match GetMoodStats sampleRepo false with Ok st => st | Err _ => [] end) in
  destruct (GetMoodStats_groups sampleRepo stats) as (Hnd & _);
    [vm_compute; reflexivity|exists stats].
  split; [vm_compute; reflexivity|]. split; [exact Hnd|]. split; reflexivity.
Defined.

(** A "complete" report for track 1 ("focus") that names the mood "calm". *)
Lemma recordPlay_play_counts_witness :
  (recordPlay sampleHandler calmBody 1 77).1 = MkResponse StatusOK None (Text "ok")
  ∧ listen_events (db (repo (recordPlay sampleHandler calmBody 1 77).2))
    = [MkListenRow 1 "calm" "complete" 200 None 77].
Proof.
  let t := eval vm_compute in
      (match GetByID sampleRepo 1 with
       | Ok (Some t) => t | _ => toTrack (row 0 "" "" 0) None end) in
  pose proof (recordPlay_play_counts sampleHandler calmBody 1 77 t) as Hp.
  cbv zeta in Hp.
  destruct Hp as (Hresp & _ & _ & Hle & _);
    [reflexivity|vm_compute; reflexivity|reflexivity|discriminate|].
  split; [exact Hresp|]. rewrite Hle. reflexivity.
Defined.

Lemma recordPlay_recency_routing_witness :
  (∃ r, radio (recordPlay sampleHandler calmBody 1 77).2 !! "focus" = Some r
        ∧ 1%Z ∈ radio.recentlyPlayed r)
  ∧ radio (recordPlay sampleHandler calmBody 1 77).2 !! "calm" = None.
Proof.
  let t := eval vm_compute in
      (match GetByID sampleRepo 1 with
       | Ok (Some t) => t | _ => toTrack (row 0 "" "" 0) None end) in
  pose proof (recordPlay_recency_routing sampleHandler calmBody 1 77 t) as Hp.
  cbv zeta in Hp.
  destruct Hp as (Hfocus & Hother & _).
  - intros md r. unfold sampleHandler, radio.NewManager. simpl.
    by rewrite lookup_empty.
  - vm_compute. reflexivity.
  - discriminate.
  - reflexivity.
  - split; [exact Hfocus|]. rewrite (Hother "calm"); [reflexivity|discriminate].
Defined.

(** [TestRecordPlay_MalformedBody_StillSucceeds]: the report of track 1
    with an unparseable body is recorded as a play. *)
Lemma recordPlay_malformed_body_witness :
  let h' := (recordPlay sampleHandler Malformed 1 77).2 in
  (recordPlay sampleHandler Malformed 1 77).1 = MkResponse StatusOK None (Text "ok")
  ∧ (∃ t', GetByID (repo h') 1 = Ok (Some t')
           ∧ PlayCount t' = 11%Z ∧ LastPlayedAt t' = Some 77%Z)
  ∧ listen_events (db (repo h')) = [MkListenRow 1 "focus" "play" 0 None 77]
  ∧ (∃ r, radio h' !! "focus" = Some r ∧ 1%Z ∈ radio.recentlyPlayed r)
  ∧ metrics h' = metrics.MkMetrics 1.
Proof.
  let t := eval vm_compute in
      (match GetByID sampleRepo 1 with
       | Ok (Some t) => t | _ => toTrack (row 0 "" "" 0) None end) in
  pose proof (recordPlay_malformed_body sampleHandler 1 77) as Hp;
  cbv zeta in Hp;
  destruct Hp as (_ & _ & _ & _ & _ & _ & H200 & Hok);
  destruct (Hok t) as (Hs & Hcount & Hrow & Hwin).
  - reflexivity.
  - vm_compute. reflexivity.
  - destruct (H200 Hs) as (Hresp & _ & _ & _ & Hm).
    cbv zeta. split_and!.
    + exact Hresp.
    + exact Hcount.
    + apply Hrow. discriminate.
    + apply Hwin. intros md r. unfold sampleHandler, radio.NewManager. simpl.
      by rewrite lookup_empty.
    + exact Hm.
Defined.

(** [TestRecordPlay_GetByIDFailure] *)
Lemma recordPlay_lookup_failure_witness :
  (recordPlay blindHandler NoBody 1 77).1 = MkResponse StatusOK None (Text "ok")
  ∧ radio (recordPlay blindHandler NoBody 1 77).2 = radio blindHandler
  ∧ listen_events (db (repo (recordPlay blindHandler NoBody 1 77).2)) = [].
Proof.
  pose proof (recordPlay_lookup_failure blindHandler NoBody 1 77
                (row 1 "focus/track1.mp3" "focus" 180)) as Hp.
  cbv zeta in Hp.
  destruct Hp as (Hresp & Hradio & _ & Hle);
    [reflexivity..|discriminate|].
  split; [exact Hresp|]. split; [exact Hradio|]. rewrite Hle. reflexivity.
Defined.

Lemma handleMoods_routing_witness :
  handleMoods sampleHandler "/api/moods/calm/playlist" "true" 0
  = getPlaylist sampleHandler "calm" true 0
  ∧ handleMoods sampleHandler "/api/moods/Calm/playlist" "true" 0
    = Some (httpError "Unknown mood" StatusNotFound, sampleHandler).
Proof.
  pose proof (handleMoods_routing sampleHandler "calm" "true" 0 eq_refl) as Hcalm.
  pose proof (handleMoods_routing sampleHandler "Calm" "true" 0 eq_refl) as Hcap.
  cbv zeta in Hcalm, Hcap.
  destruct Hcalm as (Hknown & _). destruct Hcap as (_ & Hunknown & _).
  split.
  - apply Hknown. right. by left.
  - apply Hunknown. intros [?|[?|[?|?]]]; discriminate.
Defined.

Lemma getPlaylist_cached_witness :
  ∃ slim h1,
    getPlaylist sampleHandler "calm" false 0
    = Some (MkResponse StatusOK (Some "MISS") (JSON (CachedPlaylist slim)), h1)
    ∧ ∃ h2,
        getPlaylist h1 "calm" false 100
        = Some (MkResponse StatusOK (Some "HIT") (JSON (CachedPlaylist slim)), h2)
        ∧ radio h2 = radio h1.
Proof.
  let r := eval vm_compute in (getPlaylist sampleHandler "calm" false 0) in
  match r with
  | Some (MkResponse _ _ (JSON (CachedPlaylist ?slim)), ?h1) =>
      exists slim, h1;
      destruct (getPlaylist_cached sampleHandler h1 "calm" false 0 100 slim)
        as (h2 & Hhit & Hradio & _)
  end.
  - vm_compute. reflexivity.
  - discriminate.
  - unfold cache.DefaultTTL, cache.Minute. lia.
  - split; [vm_compute; reflexivity|].
    exists h2. split; [exact Hhit|exact Hradio].
Defined.

Lemma getPlaylist_content_witness :
  ∃ slim h',
    getPlaylist sampleHandler "focus" false 0
    = Some (MkResponse StatusOK (Some "MISS") (JSON (CachedPlaylist slim)), h')
    ∧ pt_ID <$> slim ≡ₚ [2; 4; 3; 1]%Z
    ∧ ∀ pt, pt ∈ slim → pt_AudioURL pt = "/audio/" +:+ pt_FilePath pt.
Proof.
  let ts := eval vm_compute in
      (match GetByMood sampleRepo "focus" false with Ok ts => ts | Err _ => [] end) in
  destruct (getPlaylist_content sampleHandler "focus" false 0 ts)
    as (slim & h' & Hget & Hids & _ & Hurl & _).
  - apply wfManager_empty.
  - reflexivity.
  - vm_compute. reflexivity.
  - exists slim, h'. split; [exact Hget|]. split; [exact Hids|exact Hurl].
Defined.

Lemma handleTracks_routing_witness :
  handleTracks sampleHandler "/api/tracks/1/play" "POST" NoBody 77
  = recordPlay sampleHandler NoBody 1 77
  ∧ handleTracks sampleHandler "/api/tracks/1/play" "GET" NoBody 77
    = (httpError "Method not allowed" StatusMethodNotAllowed, sampleHandler).
Proof.
  pose proof (handleTracks_routing sampleHandler "1" "POST" NoBody 77 eq_refl) as Hpost.
  pose proof (handleTracks_routing sampleHandler "1" "GET" NoBody 77 eq_refl) as Hget.
  cbv zeta in Hpost, Hget.
  destruct Hpost as (Hpost & _). destruct Hget as (Hget & _).
  destruct (Hpost 1%Z eq_refl) as (_ & Hp & _).
  destruct (Hget 1%Z eq_refl) as (_ & _ & Hg).
  split; [by apply Hp|]. by apply Hg.
Defined.

(** [TestRecordPlay]'s requests with a bad ID and with an unknown action. *)
Example handleTracks_sample :
  (handleTracks sampleHandler "/api/tracks/abc/play" "POST" NoBody 77).1
  = httpError "Invalid track ID" StatusBadRequest
  ∧ (handleTracks sampleHandler "/api/tracks/1/unknown" "POST" NoBody 77).1
    = httpError "Not found" StatusNotFound.
Proof. split; reflexivity. Qed.

Example ParseInt_sample :
  ParseInt "9223372036854775807" = Some 9223372036854775807%Z
  ∧ ParseInt "9223372036854775808" = None
  ∧ ParseInt "-9223372036854775808" = Some (-9223372036854775808)%Z
  ∧ ParseInt "+7" = Some 7%Z ∧ ParseInt "1_0" = None ∧ ParseInt "-" = None.
Proof. vm_compute. done. Qed.

(** With [path.Clean] standing in as the identity on already clean paths:
    leading parent references are cut, a bare ".." is not. *)
Example sanitizePath_sample :
  audio.sanitizePath (λ p, p) "../../focus/a.mp3" = "focus/a.mp3"
  ∧ audio.sanitizePath (λ p, p) "/focus/a.mp3" = "focus/a.mp3"
  ∧ audio.sanitizePath (λ p, p) ".." = ".."
  ∧ audio.BasePath (audio.NewResolver "//audio/") = "/audio".
Proof. vm_compute. done. Qed.

End FurtherExamples.
